(** * quicktype-core/input/Inputs.ts: the multi-source input pipeline

  A shallow embedding of [JSONInput], [JSONSchemaInput] and [InputData]
  of [src/quicktype-core/input/Inputs.ts], with the properties of the
  specification stated and settled against it.

  Objects are records, methods are state transformers in a small
  state-and-exception monad in which the state survives a [throw], as
  it does for the fields of a JavaScript object.  Third-party and
  imported collaborators (urijs, CompressedJSON, the schema resolver,
  the type builder) are interfaces, given as type classes. *)

From Stdlib Require Import Ascii.
From stdpp Require Import base strings list gmap pretty.

Set Default Proof Using "Type".

(** ** support/Support: errors and the execution monad *)

Module Support.

(** What a call can throw.  [Panic] is [panic(message)], [AssertionFailed]
  is a failed [assert(cond, message)], [MessageError] is
  [messageError(kind, properties)]. *)
Inductive error : Type :=
| Panic (message : string)
| AssertionFailed (message : string)
| MessageError (kind : string) (properties : list (string * string))
| TypeError (message : string).

#[global] Instance error_eq_dec : EqDecision error.
Proof. solve_decision. Defined.

Inductive result (A : Type) : Type :=
| Ok (a : A)
| Raised (e : error).
Arguments Ok {A} a.
Arguments Raised {A} e.

(** A method of an object whose fields are [S]: it returns or throws, and
  in both cases leaves the object in some state. *)
Definition Exec (S A : Type) : Type := S → result A * S.

#[global] Instance Exec_ret {S} : MRet (Exec S) := λ A a s, (Ok a, s).
#[global] Instance Exec_bind {S} : MBind (Exec S) := λ A B f m s,
  match m s with
  | (Ok a, s') => f a s'
  | (Raised e, s') => (Raised e, s')
  end.

#[global] Instance result_ret : MRet result := λ A a, Ok a.
#[global] Instance result_bind : MBind result := λ A B f m,
  match m with
  | Ok a => f a
  | Raised e => Raised e
  end.
Definition throw {S A} (e : error) : Exec S A := λ s, (Raised e, s).
Definition gets {S A} (f : S → A) : Exec S A := λ s, (Ok (f s), s).
Definition modify {S} (f : S → S) : Exec S unit := λ s, (Ok tt, f s).

Definition panic {S A} (message : string) : Exec S A := throw (Panic message).

Definition assert {S} (condition : bool) (message : string) : Exec S unit :=
  if condition then mret tt else throw (AssertionFailed message).

(** Modelled from the spec: [defined] is imported from support/Support,
  which is not under src/.  The specification calls its use in
  [addTypes] the panic/defined-store failure branch: it returns its
  argument when that is not [undefined] and panics otherwise. *)
Definition defined {S A} (x : option A) : Exec S A :=
  match x with
  | Some a => mret a
  | None => panic "Defined value expected, but got undefined"
  end.

Definition withDefault {A} (x : option A) (theDefault : A) : A :=
  match x with Some a => a | None => theDefault end.

(** [for (const x of xs) { await body(x) }] and [forEachSync]: one
  element after the other, stopping at the first throw. *)
Fixpoint forEachSync {S A} (xs : list A) (body : A → Exec S unit) : Exec S unit :=
  match xs with
  | [] => mret tt
  | x :: rest => body x ;; forEachSync rest body
  end.

(** [StringInput = string | Readable]: text given directly, or a stream
  that will deliver it. *)
Inductive StringInput : Type :=
| SIString (s : string)
| SIReadable (content : string).

#[global] Instance StringInput_eq_dec : EqDecision StringInput.
Proof. solve_decision. Defined.

End Support.
Export Support.

(** ** immutable: OrderedMap and (Ordered)Set *)

Module Immutable.

(** [OrderedMap<string, V>]: entries in insertion order, one per key. *)
Abbreviation OrderedMap V := (list (string * V)).

Section OrderedMap.
Context {V : Type}.

Fixpoint get (k : string) (m : OrderedMap V) : option V :=
  match m with
  | [] => None
  | (k', v) :: m' => if decide (k = k') then Some v else get k m'
  end.

(** [m.set(k, v)]: replaces the value where [k] already is, appends
    otherwise. *)
Fixpoint set (k : string) (v : V) (m : OrderedMap V) : OrderedMap V :=
  match m with
  | [] => [(k, v)]
  | (k', v') :: m' =>
      if decide (k = k') then (k, v) :: m' else (k', v') :: set k v m'
  end.

(** Mutation of the object stored under [k] through a reference
    obtained from [get]: the map itself is not replaced. *)
Fixpoint mutate (f : V → V) (k : string) (m : OrderedMap V) : OrderedMap V :=
  match m with
  | [] => []
  | (k', v) :: m' =>
      if decide (k = k') then (k', f v) :: m' else (k', v) :: mutate f k m'
  end.
End OrderedMap.

(** [OrderedSet<A>] and [Set<A>]: elements in first-insertion order, no
  element twice.  Elements are compared by [Immutable.is]: by value for
  strings and [undefined], by identity for objects; [key] is what is
  compared. *)
Section OrderedSet.
Context {A K : Type} `{EqDecision K} (key : A → K).

Definition add (x : A) (s : list A) : list A :=
  if decide (key x ∈ key <$> s) then s else s ++ [x].

Definition of_list (l : list A) : list A := foldl (λ s x, add x s) [] l.

Definition first (s : list A) : option A := head s.
End OrderedSet.

End Immutable.

(** ** External collaborators *)

(** input/CompressedJSON: the parser owns a mutable string table, so
  reading a sample transforms it; it yields a value or fails with the
  message of what it threw. *)
Class CompressedJSONOps : Type := {
  Value : Type;
  CompressedJSON : Type;
  readFromStream : CompressedJSON → StringInput → CompressedJSON * (string + Value);
}.

(** ** JSONInput *)

Module JSONInput.
Section JSONInput.
Context `{CompressedJSONOps}.

Record JSONTopLevel : Type := mkTopLevel {
  samples : list Value;
  description : option string;
}.

Record JSONSourceData : Type := mkSource {
  name : string;
  source_samples : list StringInput;
  source_description : option string;
}.

Record t : Type := mk {
  _compressedJSON : CompressedJSON;
  _topLevels : Immutable.OrderedMap JSONTopLevel;
}.

Definition kind : string := "json".
Definition needIR : bool := true.
Definition needSchemaProcessing : bool := false.

Definition new (compressedJSON : CompressedJSON) : t :=
  {| _compressedJSON := compressedJSON; _topLevels := [] |}.

Definition push (sample : Value) (topLevel : JSONTopLevel) : JSONTopLevel :=
  {| samples := samples topLevel ++ [sample]; description := description topLevel |}.

Definition addSample (topLevelName : string) (sample : Value) : Exec t unit :=
  modify (λ this,
  let topLevels :=
    match Immutable.get topLevelName (_topLevels this) with
    | None =>
        Immutable.set topLevelName {| samples := []; description := None |}
          (_topLevels this)
    | Some _ => _topLevels this
    end in
  {| _compressedJSON := _compressedJSON this;
     _topLevels := Immutable.mutate (push sample) topLevelName topLevels |}).

Definition setDescription (topLevelName : string) (d : string) : Exec t unit :=
  topLevel ← gets (λ this, Immutable.get topLevelName (_topLevels this));
  match topLevel with
  | None => panic "Trying to set description for a top-level that doesn't exist"
  | Some _ =>
    modify (λ this,
      {| _compressedJSON := _compressedJSON this;
         _topLevels :=
           Immutable.mutate (λ tl, {| samples := samples tl; description := Some d |})
             topLevelName (_topLevels this) |})
  end.

(** [await this._compressedJSON.readFromStream(toReadable(sample))] inside
  the [try]: the parser's state advances whether it succeeds or not. *)
Definition readSample (sample : StringInput) : Exec t (string + Value) :=
  λ this,
  let '(cj, r) := readFromStream (_compressedJSON this) sample in
  (Ok r, {| _compressedJSON := cj; _topLevels := _topLevels this |}).

Definition addSource (source : JSONSourceData) : Exec t unit :=
  let '(mkSource name samples description) := source in
  forEachSync samples (λ sample,
  r ← readSample sample;
  match r with
  | inl message =>
      throw (MessageError "MiscJSONParseError"
               [("description", withDefault description "input");
                ("address", name);
                ("message", message)])
  | inr value =>
      addSample name value ;;
      match description with
      | Some d => setDescription name d
      | None => mret tt
      end
  end).

Definition finishAddingInputs : Exec t unit := mret tt.

Definition singleStringSchemaSource (this : t) : option string := None.

(** *** Vocabulary of the properties *)

(** The sample sequence and the description of the TopLevelSampleSet of a
  name; no set, no samples. *)
Definition samplesOf (topLevelName : string) (this : t) : list Value :=
  match Immutable.get topLevelName (_topLevels this) with
  | Some topLevel => samples topLevel
  | None => []
  end.

Definition descriptionOf (topLevelName : string) (this : t) : option string :=
  Immutable.get topLevelName (_topLevels this) ≫= description.

(** Every one of [inputs] parses, one after the other from parser state
  [cj], to these values, leaving the parser in this state. *)
Fixpoint parseAll (cj : CompressedJSON) (inputs : list StringInput)
    : option (list Value * CompressedJSON) :=
  match inputs with
  | [] => Some ([], cj)
  | input :: rest =>
      match readFromStream cj input with
      | (cj', inr value) =>
          '(values, cj'') ← parseAll cj' rest; Some (value :: values, cj'')
      | (_, inl _) => None
      end
  end.

(** A caller that awaits one [addSource] after the other. *)
Definition addSources (sources : list JSONSourceData) : Exec t unit :=
  forEachSync sources addSource.

(** The object after a sequence of [addSource] calls, whatever each of
  them returned or threw. *)
Definition afterSources (sources : list JSONSourceData) (this : t) : t :=
  foldl (λ this source, (addSource source this).2) this sources.

(** The names that have a TopLevelSampleSet, in the order of the map. *)
Definition names (this : t) : list string := (_topLevels this).*1.

(** The top levels once the sample [value] of a source named [n] with
  description [d] is recorded: what one round of the loop of [addSource]
  makes of them. *)
Definition withSample (n : string) (value : Value) (d : option string)
    (topLevels : Immutable.OrderedMap JSONTopLevel) : Immutable.OrderedMap JSONTopLevel :=
  let created :=
    match Immutable.get n topLevels with
    | None => Immutable.set n {| samples := []; description := None |} topLevels
    | Some _ => topLevels
    end in
  let pushed := Immutable.mutate (push value) n created in
  match d with
  | Some d =>
      Immutable.mutate (λ tl, {| samples := samples tl; description := Some d |}) n pushed
  | None => pushed
  end.

(** The samples of every source parse, source after source from parser
  state [cj]: the values of each source. *)
Fixpoint parseEach (cj : CompressedJSON) (sources : list JSONSourceData)
    : option (list (list Value) * CompressedJSON) :=
  match sources with
  | [] => Some ([], cj)
  | source :: rest =>
      '(values, cj') ← parseAll cj (source_samples source);
      '(valuess, cj'') ← parseEach cj' rest;
      Some (values :: valuess, cj'')
  end.

(** Of the values of the sources, those of the sources named [n], in
  submission order. *)
Definition valuesFor (n : string) (sources : list JSONSourceData)
    (valuess : list (list Value)) : list Value :=
  concat ((λ p, if decide (name p.1 = n) then p.2 else []) <$> zip sources valuess).

End JSONInput.
End JSONInput.

(** ** urijs and the schema collaborators *)

(** urijs, as far as [JSONSchemaInput] uses it.  [URI_hash v u] is
  [u.clone().hash(v)], [URI_path v u] is [u.path(v)] on a URI nobody else
  holds. *)
Class URIOps : Type := {
  URI : Type;
  URI_new : string → URI;
  URI_normalize : URI → URI;
  URI_hash : string → URI → URI;
  URI_path : string → URI → URI;
  URI_toString : URI → string;
}.

(** What [refsInSchemaForURI] answers: [[name, ref]] or a map of them. *)
Inductive Refs (Ref : Type) : Type :=
| SingleRef (refName : string) (ref : Ref)
| RefMap (refs : Immutable.OrderedMap Ref).
Arguments SingleRef {Ref} refName ref.
Arguments RefMap {Ref} refs.

(** A store is the one given to the constructor or an
  [InputJSONSchemaStore] around one.  The latter keeps a reference to the
  [_schemaInputs] map of its [JSONSchemaInput], not a copy: whoever reads
  through it is handed the map as it is at that moment. *)
#[warnings="-register-all"]
Inductive JSONSchemaStore (Given : Type) : Type :=
| GivenStore (store : Given)
| InputJSONSchemaStore (_delegate : option (JSONSchemaStore Given)).
Arguments GivenStore {Given} store.
Arguments InputJSONSchemaStore {Given} _delegate.

(** input/JSONSchemaInput, TypeBuilder and the attribute producers: the
  resolver and the materializer read schemas through the store and either
  answer or throw. *)
Class SchemaOps `{URIOps} : Type := {
  Ref : Type;
  GivenSchemaStore : Type;
  TypeBuilder : Type;
  JSONSchemaAttributeProducer : Type;
  descriptionAttributeProducer : JSONSchemaAttributeProducer;
  accessorNamesAttributeProducer : JSONSchemaAttributeProducer;
  refsInSchemaForURI :
    gmap string StringInput → JSONSchemaStore GivenSchemaStore → URI → string →
    error + Refs Ref;
  addTypesInSchema :
    TypeBuilder → gmap string StringInput → JSONSchemaStore GivenSchemaStore →
    Immutable.OrderedMap Ref → list JSONSchemaAttributeProducer →
    error + TypeBuilder;
}.

(** ** JSONSchemaInput *)

Module JSONSchemaInput.
Section JSONSchemaInput.
Context `{SchemaOps}.

Record JSONSchemaSourceData : Type := mkSource {
  name : string;
  uris : option (list string);
  schema : option StringInput;
  isConverted : option bool;
}.

Record t : Type := mk {
  _schemaStore : option (JSONSchemaStore GivenSchemaStore);
  _attributeProducers : list JSONSchemaAttributeProducer;
  _schemaInputs : gmap string StringInput;
  _schemaSources : list (URI * JSONSchemaSourceData);
  _topLevels : Immutable.OrderedMap Ref;
  _needIR : bool;
}.

Definition kind : string := "schema".
Definition needSchemaProcessing : bool := true.
Definition needIR (this : t) : bool := _needIR this.

Definition new (givenSchemaStore : option (JSONSchemaStore GivenSchemaStore))
    (additionalAttributeProducers : list JSONSchemaAttributeProducer) : t :=
  {| _schemaStore := givenSchemaStore;
     _attributeProducers :=
       [descriptionAttributeProducer; accessorNamesAttributeProducer]
       ++ additionalAttributeProducers;
     _schemaInputs := ∅;
     _schemaSources := [];
     _topLevels := [];
     _needIR := false |}.

Definition set_schemaStore (s : option (JSONSchemaStore GivenSchemaStore)) (this : t) : t :=
  mk s (_attributeProducers this) (_schemaInputs this) (_schemaSources this)
     (_topLevels this) (_needIR this).
Definition set_schemaInputs (m : gmap string StringInput) (this : t) : t :=
  mk (_schemaStore this) (_attributeProducers this) m (_schemaSources this)
     (_topLevels this) (_needIR this).
Definition set_schemaSources (l : list (URI * JSONSchemaSourceData)) (this : t) : t :=
  mk (_schemaStore this) (_attributeProducers this) (_schemaInputs this) l
     (_topLevels this) (_needIR this).
Definition set_topLevels (m : Immutable.OrderedMap Ref) (this : t) : t :=
  mk (_schemaStore this) (_attributeProducers this) (_schemaInputs this)
     (_schemaSources this) m (_needIR this).
Definition set_needIR (b : bool) (this : t) : t :=
  mk (_schemaStore this) (_attributeProducers this) (_schemaInputs this)
     (_schemaSources this) (_topLevels this) b.

Definition addTopLevel (name : string) (ref : Ref) : Exec t unit :=
  modify (λ this, set_topLevels (Immutable.set name ref (_topLevels this)) this).

(** A collaborator's answer, rethrown when it is an error. *)
Definition await {A} (r : error + A) : Exec t A :=
  match r with
  | inl e => throw e
  | inr a => mret a
  end.

Definition addTypes (typeBuilder : TypeBuilder) : Exec t TypeBuilder :=
  schemaStore ← (λ this, defined (_schemaStore this) this);
  this ← gets id;
  await (addTypesInSchema typeBuilder (_schemaInputs this) schemaStore
           (_topLevels this) (_attributeProducers this)).

(** [`-${this._schemaInputs.size + 1}`] *)
Definition uriPath (this : t) : string :=
  "-" +:+ pretty (size (_schemaInputs this) + 1).

(** [normalizedURI.clone().hash("").toString()] *)
Definition withoutHash (normalizedURI : URI) : string :=
  URI_toString (URI_hash "" normalizedURI).

(** The [normalizedURIs] of a call whose synthetic path is [uriPath]. *)
Definition normalizedURIs (uriPath : string) (uris : option (list string)) : list URI :=
  match uris with
  | None => [URI_new uriPath]
  | Some uris =>
      (λ uri,
         let normalizedURI := URI_normalize (URI_new uri) in
         if decide (withoutHash normalizedURI = "")
         then URI_path uriPath normalizedURI
         else normalizedURI) <$> uris
  end.

Definition addSource (schemaSource : JSONSchemaSourceData) : Exec t unit :=
  let '(mkSource _ uris schema isConverted) := schemaSource in
  (if decide (isConverted = Some true) then mret tt else modify (set_needIR true)) ;;
  uriPath ← gets uriPath;
  let normalizedURIs := normalizedURIs uriPath uris in
  match schema with
  | None =>
      assert (bool_decide (uris ≠ None))
        "URIs must be given if schema source is not specified"
  | Some schema =>
      forEachSync normalizedURIs (λ normalizedURI,
        modify (λ this,
          set_schemaInputs (<[withoutHash normalizedURI := schema]> (_schemaInputs this)) this))
  end ;;
  forEachSync normalizedURIs (λ normalizedURI,
    modify (λ this,
      set_schemaSources (_schemaSources this ++ [(normalizedURI, schemaSource)]) this)).

(** The function [finishAddingInputs] hands to [forEachSync]. *)
Definition resolveSource (schemaStore : JSONSchemaStore GivenSchemaStore)
    (pair : URI * JSONSchemaSourceData) : Exec t unit :=
  let '(normalizedURI, source) := pair in
  let givenName := name source in
  refs ← (λ this,
    await (refsInSchemaForURI (_schemaInputs this) schemaStore normalizedURI givenName) this);
  match refs with
  | SingleRef refName ref =>
      size ← gets (λ this, length (_schemaSources this));
      let name := if bool_decide (size = 1) then givenName else refName in
      addTopLevel name ref
  | RefMap refs =>
      forEachSync refs (λ '(refName, ref), addTopLevel refName ref)
  end.

Definition finishAddingInputs : Exec t unit :=
  schemaSources ← gets _schemaSources;
  if bool_decide (length schemaSources = 0) then mret tt else
  maybeSchemaStore ← gets _schemaStore;
  size ← gets (λ this, size (_schemaInputs this));
  schemaStore ←
    (if bool_decide (size = 0) then
       match maybeSchemaStore with
       | None => panic "Must have a schema store to process JSON Schema"
       | Some schemaStore => mret schemaStore
       end
     else
       let schemaStore := InputJSONSchemaStore maybeSchemaStore in
       modify (set_schemaStore (Some schemaStore)) ;; mret schemaStore);
  forEachSync schemaSources (resolveSource schemaStore).

(** [typeof schema === "string"] *)
Definition isString (schema : option StringInput) : bool :=
  match schema with
  | Some (SIString _) => true
  | _ => false
  end.

(** [schema as string]: a cast, evaluated only behind the [every] guard. *)
Definition asString (schema : option StringInput) : string :=
  match schema with
  | Some (SIString s) => s
  | Some (SIReadable content) => content
  | None => ""
  end.

Definition singleStringSchemaSource (this : t) : result (option string) :=
  if negb (forallb (λ '(_, source), isString (schema source)) (_schemaSources this))
  then Ok None
  else
    let set := Immutable.of_list id ((λ '(_, source), asString (schema source)) <$> _schemaSources this) in
    if bool_decide (length set = 1) then
      match Immutable.first set with
      | Some s => Ok (Some s)
      | None => Raised (Panic "Defined value expected, but got undefined")
      end
    else Ok None.

(** *** Vocabulary of the properties *)

(** A caller that awaits one [addSource] after the other. *)
Definition addSources (sources : list JSONSchemaSourceData) : Exec t unit :=
  forEachSync sources addSource.

(** The object after a sequence of [addSource] calls, whatever each of
  them returned or threw. *)
Definition afterSources (sources : list JSONSchemaSourceData) (this : t) : t :=
  foldl (λ this source, (addSource source this).2) this sources.

(** The calls that make up the phases before [addTypes], and the object
  after a sequence of them in any order, whatever each returned or threw. *)
Inductive call : Type :=
| AddSource (source : JSONSchemaSourceData)
| FinishAddingInputs.

Definition perform (c : call) : Exec t unit :=
  match c with
  | AddSource source => addSource source
  | FinishAddingInputs => finishAddingInputs
  end.

Definition afterCalls (calls : list call) (this : t) : t :=
  foldl (λ this c, (perform c this).2) this calls.

(** What [addTypes] amounts to once the store is known to be [store]. *)
Definition materialize (typeBuilder : TypeBuilder)
    (store : JSONSchemaStore GivenSchemaStore) (this : t) : result TypeBuilder :=
  match addTypesInSchema typeBuilder (_schemaInputs this) store
          (_topLevels this) (_attributeProducers this) with
  | inl e => Raised e
  | inr typeBuilder' => Ok typeBuilder'
  end.

(** How many URIs a source brings: the synthetic one when it has no
  [uris]. *)
Definition uriCount (source : JSONSchemaSourceData) : nat :=
  match uris source with
  | None => 1
  | Some uris => length uris
  end.

(** The store [finishAddingInputs] resolves against. *)
Definition activeStore (this : t) : option (JSONSchemaStore GivenSchemaStore) :=
  if bool_decide (size (_schemaInputs this) = 0) then _schemaStore this
  else Some (InputJSONSchemaStore (_schemaStore this)).

(** What the resolution step answers for a recorded source. *)
Definition resolution (this : t) (store : JSONSchemaStore GivenSchemaStore)
    (pair : URI * JSONSchemaSourceData) : error + Refs Ref :=
  refsInSchemaForURI (_schemaInputs this) store pair.1 (name pair.2).

(** The names and references of an answer, under the names the
  resolution step supplies. *)
Definition resolved (refs : Refs Ref) : list (string * Ref) :=
  match refs with
  | SingleRef refName ref => [(refName, ref)]
  | RefMap refs => refs
  end.

Definition setAll (entries : list (string * Ref)) (topLevels : Immutable.OrderedMap Ref)
    : Immutable.OrderedMap Ref :=
  foldl (λ m entry, Immutable.set entry.1 entry.2 m) topLevels entries.



End JSONSchemaInput.
End JSONSchemaInput.

(** ** InputJSONSchemaStore *)

(** What [fetch] relies on: [checkedSchema input address] is
  [checkJSONSchema(parseJSON(await toString(input), "JSON Schema", address), ...)],
  a schema or what was thrown; [fetchGiven] is the [fetch] of a store
  given to the constructor of [JSONSchemaInput], which may find nothing. *)
Class FetchOps `{SchemaOps} : Type := {
  JSONSchema : Type;
  checkedSchema : StringInput → string → error + JSONSchema;
  fetchGiven : GivenSchemaStore → string → error + option JSONSchema;
}.

Module InputJSONSchemaStore.
Section InputJSONSchemaStore.
Context `{FetchOps}.

(** [store.fetch(address)], with [_inputs] the map the
  [InputJSONSchemaStore]s of a [JSONSchemaInput] all refer to. *)
Fixpoint fetch (_inputs : gmap string StringInput)
    (store : JSONSchemaStore GivenSchemaStore) (address : string) {struct store}
    : error + option JSONSchema :=
  match store with
  | GivenStore given => fetchGiven given address
  | InputJSONSchemaStore _delegate =>
      match _inputs !! address with
      | Some maybeInput =>
          match checkedSchema maybeInput address with
          | inl e => inl e
          | inr schema => inr (Some schema)
          end
      | None =>
          match _delegate with
          | None =>
              inl (Panic ("Schema URI " +:+ address +:+ " requested, but no store given"))
          | Some delegate => fetch _inputs delegate address
          end
      end
  end.

(** *** Vocabulary of the properties *)

(** [n] [InputJSONSchemaStore]s, one around the other, around a store or
  around none. *)
Definition wrapped (n : nat) (delegate : option (JSONSchemaStore GivenSchemaStore))
    : option (JSONSchemaStore GivenSchemaStore) :=
  Nat.iter n (λ delegate, Some (InputJSONSchemaStore delegate)) delegate.

End InputJSONSchemaStore.
End InputJSONSchemaStore.

(** ** InputData *)

Module InputData.
Section InputData.
Context `{CompressedJSONOps} `{SchemaOps}.

(** The implementations of [Input<T>] in this file. *)
Inductive Input : Type :=
| JSON (input : JSONInput.t)
| Schema (input : JSONSchemaInput.t).

(** A source as [addSource<T>] receives it: an object, whatever [T] is. *)
Inductive Source : Type :=
| JSONSource (source : JSONInput.JSONSourceData)
| SchemaSource (source : JSONSchemaInput.JSONSchemaSourceData).

Definition Input_kind (input : Input) : string :=
  match input with
  | JSON _ => JSONInput.kind
  | Schema _ => JSONSchemaInput.kind
  end.

Definition Input_needIR (input : Input) : bool :=
  match input with
  | JSON _ => JSONInput.needIR
  | Schema i => JSONSchemaInput.needIR i
  end.

Definition Input_needSchemaProcessing (input : Input) : bool :=
  match input with
  | JSON _ => JSONInput.needSchemaProcessing
  | Schema _ => JSONSchemaInput.needSchemaProcessing
  end.

(** [input.addSource(source)].  The call is not checked against [T]: a
  [JSONInput] handed a schema source finds no [samples] to iterate, and a
  [JSONSchemaInput] handed a JSON source finds neither [uris] nor
  [schema] in it. *)
Definition Input_addSource (source : Source) : Exec Input unit := λ input,
  match input, source with
  | JSON i, JSONSource s =>
      let '(r, i') := JSONInput.addSource s i in (r, JSON i')
  | JSON i, SchemaSource _ =>
      (Raised (TypeError "samples is not iterable"), input)
  | Schema i, SchemaSource s =>
      let '(r, i') := JSONSchemaInput.addSource s i in (r, Schema i')
  | Schema i, JSONSource s =>
      let '(r, i') :=
        JSONSchemaInput.addSource
          (JSONSchemaInput.mkSource (JSONInput.name s) None None None) i in
      (r, Schema i')
  end.

Definition Input_finishAddingInputs : Exec Input unit := λ input,
  match input with
  | JSON i => let '(r, i') := JSONInput.finishAddingInputs i in (r, JSON i')
  | Schema i => let '(r, i') := JSONSchemaInput.finishAddingInputs i in (r, Schema i')
  end.

Definition Input_singleStringSchemaSource (input : Input) : result (option string) :=
  match input with
  | JSON i => Ok (JSONInput.singleStringSchemaSource i)
  | Schema i => JSONSchemaInput.singleStringSchemaSource i
  end.

(** The registry holds references: an entry is the identity of an [Input]
  object together with the object's current state. *)
Record t : Type := mk {
  _inputs : list (nat * Input);
}.

Definition new : t := {| _inputs := [] |}.

Definition addInput (input : nat * Input) : Exec t unit :=
  modify (λ this, {| _inputs := Immutable.add fst input (_inputs this) |}).

(** The identity of a newly constructed object: that of no registered one. *)
Definition fresh (this : t) : nat := S (max_list (fst <$> _inputs this)).

Fixpoint store (identity : nat) (input : Input) (inputs : list (nat * Input))
    : list (nat * Input) :=
  match inputs with
  | [] => []
  | (i, o) :: rest =>
      if decide (i = identity) then (i, input) :: rest
      else (i, o) :: store identity input rest
  end.

(** A method call on the registered object [identity]. *)
Definition call {A} (identity : nat) (method : Exec Input A) : Exec t A := λ this,
  match find (λ i, bool_decide (i.1 = identity)) (_inputs this) with
  | Some (_, input) =>
      let '(r, input') := method input in
      (r, {| _inputs := store identity input' (_inputs this) |})
  | None => (Raised (TypeError "undefined is not an object"), this)
  end.

(** [makeInput] is taken to construct a processor: its result is a new
  object, in the state given. *)
Definition addSource (kind : string) (source : Source) (makeInput : Input) : Exec t unit :=
  found ← gets (λ this, find (λ i, bool_decide (Input_kind i.2 = kind)) (_inputs this));
  input ← match found with
          | Some (identity, _) => mret identity
          | None =>
              identity ← gets fresh;
              addInput (identity, makeInput) ;;
              mret identity
          end;
  call input (Input_addSource source).

Definition finishAddingInputs : Exec t unit :=
  inputs ← gets _inputs;
  forEachSync inputs (λ '(identity, _), call identity Input_finishAddingInputs).

Definition needIR (this : t) : bool :=
  existsb (λ i, Input_needIR i.2) (_inputs this).

Definition needSchemaProcessing (this : t) : bool :=
  existsb (λ i, Input_needSchemaProcessing i.2) (_inputs this).

(** [this._inputs.map(...)] is again an [OrderedSet]: equal answers are one
  element of it. *)
Definition singleStringSchemaSource (this : t) : result (option string) :=
  answers ← mapM (λ i, Input_singleStringSchemaSource i.2) (_inputs this);
  let schemaStrings :=
    filter (λ s, s ≠ None) (Immutable.of_list id answers) in
  if bool_decide (1 < length schemaStrings)
  then Raised (Panic "We have more than one input with a string schema source")
  else Ok (mjoin (Immutable.first schemaStrings)).

(** *** Vocabulary of the properties *)

Definition identities (this : t) : list nat := (_inputs this).*1.

Definition kinds (this : t) : list string :=
  (λ i, Input_kind i.2) <$> _inputs this.

(** An [addSource] call: the kind, the source, and what [makeInput] would
  construct. *)
Definition sourceCall : Type := string * Source * Input.

(** The registry after a sequence of [addSource] calls, whatever each of
  them returned or threw. *)
Definition afterAddSources (calls : list sourceCall) (this : t) : t :=
  foldl (λ this c, (addSource c.1.1 c.1.2 c.2 this).2) this calls.

(** The factory makes a processor of the kind it is asked for. *)
Definition ofItsKind (c : sourceCall) : Prop := Input_kind c.2 = c.1.1.

(** The literal schema strings the processors report, in registration
  order; a processor answering "none" reports nothing. *)
Definition reported (this : t) : list string :=
  omap (λ i, match Input_singleStringSchemaSource i.2 with
             | Ok answer => answer
             | Raised _ => None
             end) (_inputs this).

(** The calls that fill and finish the registry, and the registry after
  a sequence of them in any order, whatever each returned or threw. *)
Inductive step : Type :=
| AddInput (input : nat * Input)
| AddSource (kind : string) (source : Source) (makeInput : Input)
| FinishAddingInputs.

Definition perform (c : step) : Exec t unit :=
  match c with
  | AddInput input => addInput input
  | AddSource kind source makeInput => addSource kind source makeInput
  | FinishAddingInputs => finishAddingInputs
  end.

Definition afterSteps (steps : list step) (this : t) : t :=
  foldl (λ this c, (perform c this).2) this steps.

End InputData.
End InputData.

(** ** Concrete collaborators, for the examples *)

(** A parser whose values are the texts themselves and whose state counts
  the samples read; the empty text does not parse. *)
Module TextJSON.

Definition read (cj : nat) (input : StringInput) : nat * (string + string) :=
  match input with
  | SIString "" | SIReadable "" => (cj, inl "Unexpected end of JSON input")
  | SIString s | SIReadable s => (S cj, inr s)
  end.

#[global] Instance ops : CompressedJSONOps :=
  {| Value := string; CompressedJSON := nat; readFromStream := read |}.

End TextJSON.

(** URIs that are a relative path with an optional fragment, the path
  without scheme, authority, query, dot segments or escapes: urijs
  normalizes such a URI to itself. *)
Module SimpleURI.

Record uri : Type := mk { path : string; fragment : string }.

(** Everything after the first [#] is the fragment. *)
Fixpoint parse (s : string) : uri :=
  match s with
  | EmptyString => {| path := ""; fragment := "" |}
  | String c rest =>
      if decide (c = "#"%char) then {| path := ""; fragment := rest |}
      else let u := parse rest in {| path := String c (path u); fragment := fragment u |}
  end.

Definition build (u : uri) : string :=
  path u +:+ (if decide (fragment u = "") then "" else "#" +:+ fragment u).

#[global] Instance ops : URIOps :=
  {| URI := uri;
     URI_new := parse;
     URI_normalize := id;
     URI_hash := λ v u, {| path := path u; fragment := v |};
     URI_path := λ v u, {| path := v; fragment := fragment u |};
     URI_toString := build |}.

End SimpleURI.

(** A resolution step that names a single reference after the document it
  is in, ["Title of "] followed by the document's address, as one that
  finds a title there does; the fragment ["definitions/"] yields the two
  definitions of the document under their own names.  A reference is the
  URI it points to; the type builder is the list of the top-level names
  it was given. *)
Module TitledSchemas.
Import SimpleURI.

Definition resolve (inputs : gmap string StringInput) (store : JSONSchemaStore unit)
    (u : uri) (defaultName : string) : error + Refs string :=
  if decide (fragment u = "definitions/")
  then inr (RefMap [("First", build u +:+ "First"); ("Second", build u +:+ "Second")])
  else inr (SingleRef ("Title of " +:+ path u) (build u)).

#[global] Instance ops : SchemaOps :=
  {| Ref := string;
     GivenSchemaStore := unit;
     TypeBuilder := list string;
     JSONSchemaAttributeProducer := string;
     descriptionAttributeProducer := "description";
     accessorNamesAttributeProducer := "accessorNames";
     refsInSchemaForURI := resolve;
     addTypesInSchema := λ typeBuilder _ _ topLevels _, inr (typeBuilder ++ topLevels.*1) |}.

End TitledSchemas.

(** A resolution step that finds its documents in the literal texts only,
  as with no store given to the constructor: a reference into a document
  that is not there makes it throw what [fetch] throws. *)
Module CachedSchemas.
Import SimpleURI.

Definition resolve (inputs : gmap string StringInput) (store : JSONSchemaStore unit)
    (u : uri) (defaultName : string) : error + Refs string :=
  match inputs !! path u with
  | Some _ => inr (SingleRef ("Title of " +:+ path u) (build u))
  | None => inl (Panic ("Schema URI " +:+ path u +:+ " requested, but no store given"))
  end.

Definition ops : SchemaOps :=
  {| Ref := string;
     GivenSchemaStore := unit;
     TypeBuilder := list string;
     JSONSchemaAttributeProducer := string;
     descriptionAttributeProducer := "description";
     accessorNamesAttributeProducer := "accessorNames";
     refsInSchemaForURI := resolve;
     addTypesInSchema := λ typeBuilder _ _ topLevels _, inr (typeBuilder ++ topLevels.*1) |}.

End CachedSchemas.

(** Schemas that are their own text; the empty text is no schema, and the
  given store finds nothing. *)
Module TextSchemas.

Definition check (input : StringInput) (address : string) : error + string :=
  match input with
  | SIString "" | SIReadable "" =>
      inl (MessageError "MiscJSONParseError"
             [("description", "JSON Schema"); ("address", address);
              ("message", "Unexpected end of JSON input")])
  | SIString s | SIReadable s => inr s
  end.

#[global] Instance ops : FetchOps :=
  {| JSONSchema := string;
     checkedSchema := check;
     fetchGiven := λ _ _, inr None |}.

End TextSchemas.

(** * Properties *)

(** ** The execution monad *)

(** Runs a computation of the monad as far as it is determined. *)
Ltac exec_step :=
  cbv beta iota delta
    [mbind mret Exec_bind Exec_ret gets modify throw panic assert defined].
Ltac exec := repeat (progress (exec_step; simpl)).

Section ExecFacts.
Context {S : Type}.

Lemma bind_Ok {A B} (m : Exec S A) (f : A → Exec S B) s a s' :
  m s = (Ok a, s') → (m ≫= f) s = f a s'.
Proof. intros Hm. unfold mbind, Exec_bind. by rewrite Hm. Qed.

Lemma forEachSync_app_Ok {A} (xs ys : list A) (body : A → Exec S unit) s s' :
  forEachSync xs body s = (Ok tt, s') →
  forEachSync (xs ++ ys) body s = forEachSync ys body s'.
Proof.
  revert s. induction xs as [|x xs IH]; intros s Hxs; simpl in *.
  - by inversion Hxs.
  - unfold mbind, Exec_bind in *. destruct (body x s) as [[[]|e] s1]; [|done].
    by apply IH.
Qed.

Lemma forEachSync_app_Raised {A} (xs ys : list A) (body : A → Exec S unit) s e s' :
  forEachSync xs body s = (Raised e, s') →
  forEachSync (xs ++ ys) body s = (Raised e, s').
Proof.
  revert s. induction xs as [|x xs IH]; intros s Hxs; simpl in *.
  - inversion Hxs.
  - unfold mbind, Exec_bind in *. destruct (body x s) as [[[]|e'] s1]; [|done].
    by apply IH.
Qed.

(** A loop of plain updates is their left fold. *)
Lemma forEachSync_modify {A} (xs : list A) (f : A → S → S) s :
  forEachSync xs (λ x s, (Ok tt, f x s)) s = (Ok tt, foldl (λ s x, f x s) s xs).
Proof. revert s. induction xs as [|x xs IH]; intros s; simpl; [done|]. apply IH. Qed.

End ExecFacts.

(** ** OrderedMap *)

Section OrderedMapFacts.
Context {V : Type}.
Implicit Types (m : Immutable.OrderedMap V) (k : string).

Lemma get_set_eq k v m : Immutable.get k (Immutable.set k v m) = Some v.
Proof.
  induction m as [|[k' v'] m IH]; simpl.
  - by rewrite decide_True.
  - destruct (decide (k = k')); simpl; [by rewrite decide_True|by rewrite decide_False].
Qed.

Lemma get_mutate_eq f k m :
  Immutable.get k (Immutable.mutate f k m) = f <$> Immutable.get k m.
Proof.
  induction m as [|[k' v'] m IH]; simpl; [done|].
  destruct (decide (k = k')); simpl; [by rewrite decide_True|by rewrite decide_False].
Qed.

End OrderedMapFacts.

(** ** OrderedSet *)

Section OrderedSetFacts.
Context {A K : Type} `{EqDecision K} (key : A → K).
Implicit Types (s l : list A) (k : K).

Lemma elem_of_add_keys k x s :
  k ∈ key <$> Immutable.add key x s ↔ k = key x ∨ k ∈ key <$> s.
Proof.
  unfold Immutable.add. destruct (decide (key x ∈ key <$> s)) as [Hin|Hout].
  - split; [by right|]. by intros [->|?].
  - rewrite fmap_app, elem_of_app. simpl. rewrite list_elem_of_singleton. tauto.
Qed.

Lemma add_NoDup x s : NoDup (key <$> s) → NoDup (key <$> Immutable.add key x s).
Proof.
  intros Hs. unfold Immutable.add. destruct (decide (key x ∈ key <$> s)); [done|].
  rewrite fmap_app. apply NoDup_app. split; [done|]. split.
  - intros k Hk. simpl. rewrite list_elem_of_singleton. by intros ->.
  - apply NoDup_singleton.
Qed.

Lemma elem_of_adds_keys k l s :
  k ∈ key <$> foldl (λ s x, Immutable.add key x s) s l
  ↔ k ∈ key <$> s ∨ k ∈ key <$> l.
Proof.
  revert s. induction l as [|x l IH]; intros s; simpl.
  - rewrite elem_of_nil. tauto.
  - rewrite IH, elem_of_add_keys, elem_of_cons. tauto.
Qed.

Lemma adds_NoDup l s :
  NoDup (key <$> s) → NoDup (key <$> foldl (λ s x, Immutable.add key x s) s l).
Proof.
  revert s. induction l as [|x l IH]; intros s Hs; simpl; [done|].
  by apply IH, add_NoDup.
Qed.

Lemma elem_of_of_list_keys k l :
  k ∈ key <$> Immutable.of_list key l ↔ k ∈ key <$> l.
Proof.
  unfold Immutable.of_list. rewrite elem_of_adds_keys. simpl.
  rewrite elem_of_nil. tauto.
Qed.

Lemma of_list_NoDup l : NoDup (key <$> Immutable.of_list key l).
Proof. apply adds_NoDup. simpl. apply NoDup_nil_2. Qed.

End OrderedSetFacts.

(** Sets of values: what [Set(...)] of a list holds. *)
Section ValueSetFacts.
Context {A : Type} `{EqDecision A}.
Implicit Types (l : list A) (x : A).

Lemma elem_of_of_list x l : x ∈ Immutable.of_list id l ↔ x ∈ l.
Proof.
  pose proof (elem_of_of_list_keys id x l) as Hiff.
  by rewrite !list_fmap_id in Hiff.
Qed.

Lemma of_list_id_NoDup l : NoDup (Immutable.of_list id l).
Proof. pose proof (of_list_NoDup id l) as Hnd. by rewrite list_fmap_id in Hnd. Qed.

(** The set is a singleton exactly when the list is not empty and holds
  one value throughout. *)
Lemma of_list_singleton x l :
  Immutable.of_list id l = [x] ↔ l ≠ [] ∧ ∀ y, y ∈ l → y = x.
Proof.
  split.
  - intros Hset. split.
    + intros ->. done.
    + intros y Hy. apply elem_of_of_list in Hy. rewrite Hset in Hy.
      by apply list_elem_of_singleton in Hy.
  - intros [Hne Hall].
    pose proof (of_list_id_NoDup l) as Hnd.
    assert (∀ y, y ∈ Immutable.of_list id l → y = x) as Hall'.
    { intros y Hy. by apply Hall, elem_of_of_list. }
    assert (x ∈ Immutable.of_list id l) as Hx.
    { apply elem_of_of_list. destruct l as [|y l]; [done|].
      rewrite (Hall y) by left. left. }
    destruct (Immutable.of_list id l) as [|a [|b rest]].
    + by apply elem_of_nil in Hx.
    + f_equal. apply Hall'. left.
    + exfalso. apply NoDup_cons in Hnd as [Hnotin _]. apply Hnotin.
      rewrite (Hall' a) by left. rewrite (Hall' b) by (right; left). left.
Qed.

End ValueSetFacts.

(** ** JSONInput *)

Section JSONInputFacts.
Context `{CompressedJSONOps}.
Import JSONInput.

Implicit Types (this : t) (n : string) (d : option string).

(** Samples of one call, one after the other. *)
Lemma addSource_app_Ok n pre post d this this1 :
  addSource (mkSource n pre d) this = (Ok tt, this1) →
  addSource (mkSource n (pre ++ post) d) this = addSource (mkSource n post d) this1.
Proof. unfold addSource. apply forEachSync_app_Ok. Qed.

Lemma addSource_cons_Ok n x rest d this this1 :
  addSource (mkSource n [x] d) this = (Ok tt, this1) →
  addSource (mkSource n (x :: rest) d) this = addSource (mkSource n rest d) this1.
Proof. apply (addSource_app_Ok n [x] rest). Qed.

Lemma addSource_app_Raised n pre post d this e this1 :
  addSource (mkSource n pre d) this = (Raised e, this1) →
  addSource (mkSource n (pre ++ post) d) this = (Raised e, this1).
Proof. unfold addSource. apply forEachSync_app_Raised. Qed.

(** One sample that parses: it is appended to the set of the name, which
  is created if need be, and the description is set; [setDescription]
  finds the set. *)
Lemma addSource_one_parsed n x d this cj' v :
  readFromStream (_compressedJSON this) x = (cj', inr v) →
  ∃ this1,
    addSource (mkSource n [x] d) this = (Ok tt, this1)
    ∧ _compressedJSON this1 = cj'
    ∧ samplesOf n this1 = samplesOf n this ++ [v]
    ∧ descriptionOf n this1 = from_option Some (descriptionOf n this) d.
Proof.
  intros Hread. unfold addSource, samplesOf, descriptionOf. simpl.
  unfold readSample, addSample, setDescription. exec.
  rewrite Hread. exec.
  destruct d as [d|]; exec.
  - destruct (Immutable.get n (_topLevels this)) as [tl|] eqn:Hget; simpl.
    + rewrite get_mutate_eq, Hget. simpl.
      eexists. split; [done|]. simpl.
      by rewrite !get_mutate_eq, Hget.
    + rewrite get_mutate_eq, get_set_eq. simpl.
      eexists. split; [done|]. simpl.
      by rewrite !get_mutate_eq, get_set_eq.
  - eexists. split; [done|]. simpl.
    destruct (Immutable.get n (_topLevels this)) as [tl|] eqn:Hget; simpl.
    + by rewrite !get_mutate_eq, Hget.
    + by rewrite !get_mutate_eq, get_set_eq.
Qed.

(** One sample that does not parse: the call throws, and only the parser
  has moved. *)
Lemma addSource_one_failed n x d this cj' message :
  readFromStream (_compressedJSON this) x = (cj', inl message) →
  addSource (mkSource n [x] d) this
  = (Raised (MessageError "MiscJSONParseError"
               [("description", withDefault d "input");
                ("address", n); ("message", message)]),
     {| _compressedJSON := cj'; _topLevels := _topLevels this |}).
Proof.
  intros Hread. unfold addSource, readSample. exec. by rewrite Hread.
Qed.

(** Samples that all parse. *)
Lemma addSource_parsed n samples d this values cj' :
  parseAll (_compressedJSON this) samples = Some (values, cj') →
  ∃ this',
    addSource (mkSource n samples d) this = (Ok tt, this')
    ∧ _compressedJSON this' = cj'
    ∧ samplesOf n this' = samplesOf n this ++ values
    ∧ length values = length samples
    ∧ descriptionOf n this'
      = (if samples is [] then descriptionOf n this
         else from_option Some (descriptionOf n this) d).
Proof.
  revert this values. induction samples as [|x rest IH]; intros this values Hparse.
  - simpl in Hparse. inversion Hparse; subst. exists this.
    by rewrite app_nil_r.
  - simpl in Hparse.
    destruct (readFromStream (_compressedJSON this) x) as [cj1 [message|v]] eqn:Hread;
      [done|].
    destruct (parseAll cj1 rest) as [[values' cj2]|] eqn:Hrest; [|done].
    simpl in Hparse. inversion Hparse; subst.
    destruct (addSource_one_parsed n x d this cj1 v Hread)
      as (this1 & Hone & Hcj & Hsamples & Hdescr).
    rewrite <- Hcj in Hrest.
    destruct (IH this1 values' Hrest) as (this' & Hall & Hcj' & Hsamples' & Hlen & Hdescr').
    exists this'. rewrite (addSource_cons_Ok _ _ _ _ _ _ Hone).
    split; [done|]. split; [done|]. split.
    { by rewrite Hsamples', Hsamples, <- app_assoc. }
    split; [simpl; by rewrite Hlen|].
    rewrite Hdescr', Hdescr. destruct rest, d; done.
Qed.

Lemma parseAll_app_inv cj xs ys values cj2 :
  parseAll cj (xs ++ ys) = Some (values, cj2) →
  ∃ values1 cj1 values2,
    parseAll cj xs = Some (values1, cj1)
    ∧ parseAll cj1 ys = Some (values2, cj2)
    ∧ values = values1 ++ values2.
Proof.
  revert cj values. induction xs as [|x xs IH]; intros cj values Hall; simpl in *.
  - by exists [], cj, values.
  - destruct (readFromStream cj x) as [cj' [?|v]]; [done|].
    destruct (parseAll cj' (xs ++ ys)) as [[values0 cj0]|] eqn:Hrest; [|done].
    simpl in Hall. inversion Hall; subst.
    destruct (IH _ _ Hrest) as (values1 & cj1 & values2 & -> & Hys & ->).
    by exists (v :: values1), cj1, values2.
Qed.

(** C8. For every sequence of [addSource] calls on a [JSONInput] that all
  target the name [n] and whose samples all parse, the calls all return,
  and the sample sequence of the TopLevelSampleSet of [n] is afterwards
  what it was before (nothing, on a new [JSONInput]) followed by the
  values of all submitted samples in submission order; its length grows
  by the number of samples submitted. *)
Theorem C8_samples_in_submission_order n (sources : list JSONSourceData) this values cj' :
  Forall (λ source, name source = n) sources →
  parseAll (_compressedJSON this) (concat (source_samples <$> sources))
    = Some (values, cj') →
  ∃ this',
    addSources sources this = (Ok tt, this')
    ∧ samplesOf n this' = samplesOf n this ++ values
    ∧ length (samplesOf n this')
      = length (samplesOf n this) + length (concat (source_samples <$> sources)).
Proof.
  intros Hnames. revert this values.
  induction Hnames as [|[n' samples d] sources Hn _ IH]; intros this values Hparse.
  - simpl in Hparse. inversion Hparse; subst. exists this.
    rewrite app_nil_r. simpl. split; [done|]. split; [done|lia].
  - simpl in Hn, Hparse. subst n'.
    apply parseAll_app_inv in Hparse
      as (values1 & cj1 & values2 & Hfirst & Hrest & ->).
    destruct (addSource_parsed n samples d this values1 cj1 Hfirst)
      as (this1 & Hcall & Hcj & Hsamples & Hlen & _).
    rewrite <- Hcj in Hrest.
    destruct (IH this1 values2 Hrest) as (this' & Hcalls & Hsamples' & Hlen').
    exists this'. split.
    { unfold addSources in *. simpl. by erewrite bind_Ok. }
    split.
    { by rewrite Hsamples', Hsamples, <- app_assoc. }
    rewrite Hlen', Hsamples, fmap_cons. simpl concat. rewrite !length_app, Hlen.
    simpl. lia.
Qed.

(** C10. When the [k]-th sample of a call does not parse, the call throws
  the parse error at once, and the [k-1] samples before it stay recorded
  in the TopLevelSampleSet, after the samples that were there, as does
  the description of the call if it has one and [k > 1]; then the top
  levels are not what they were before the call. *)
Theorem C10_addSource_not_atomic (source : JSONSourceData) this pre bad post values cj1 cj2 message :
  source_samples source = pre ++ bad :: post →
  parseAll (_compressedJSON this) pre = Some (values, cj1) →
  readFromStream cj1 bad = (cj2, inl message) →
  ∃ this',
    addSource source this
    = (Raised (MessageError "MiscJSONParseError"
                 [("description", withDefault (source_description source) "input");
                  ("address", name source); ("message", message)]),
       this')
    ∧ samplesOf (name source) this' = samplesOf (name source) this ++ values
    ∧ length values = length pre
    ∧ (pre ≠ [] → ∀ text, source_description source = Some text →
         descriptionOf (name source) this' = Some text)
    ∧ (pre ≠ [] → _topLevels this' ≠ _topLevels this).
Proof.
  destruct source as [n samples d].
  cbn [source_samples name source_description]. intros -> Hpre Hbad.
  destruct (addSource_parsed n pre d this values cj1 Hpre)
    as (this1 & Hcall & Hcj & Hsamples & Hlen & Hdescr).
  rewrite <- Hcj in Hbad.
  pose proof (addSource_one_failed n bad d this1 cj2 message Hbad) as Hfail.
  eexists. split.
  { rewrite (addSource_app_Ok _ _ _ _ _ _ Hcall).
    change (bad :: post) with ([bad] ++ post).
    by rewrite (addSource_app_Raised _ _ _ _ _ _ _ Hfail). }
  unfold samplesOf, descriptionOf in *. simpl.
  split; [done|]. split; [done|]. split.
  - intros Hne d' ->. rewrite Hdescr. by destruct pre.
  - intros Hne Heq. rewrite Heq in Hsamples.
    apply (f_equal length) in Hsamples. rewrite length_app, Hlen in Hsamples.
    destruct pre; [done|]. simpl in Hsamples. lia.
Qed.

End JSONInputFacts.

(** ** JSONSchemaInput: addSource *)

Section JSONSchemaInputFacts.
Context `{SchemaOps}.
Import JSONSchemaInput.

Implicit Types (this : t) (source : JSONSchemaSourceData).

Lemma foldl_set_schemaInputs (text : StringInput) (us : list URI) this :
  foldl (λ this u,
           set_schemaInputs (<[withoutHash u := text]> (_schemaInputs this)) this)
    this us
  = set_schemaInputs
      (foldl (λ m u, <[withoutHash u := text]> m) (_schemaInputs this) us) this.
Proof.
  revert this. induction us as [|u us IH]; intros this; simpl.
  - by destruct this.
  - rewrite IH. by destruct this.
Qed.

Lemma foldl_set_schemaSources source (us : list URI) this :
  foldl (λ this u, set_schemaSources (_schemaSources this ++ [(u, source)]) this)
    this us
  = set_schemaSources (_schemaSources this ++ ((λ u, (u, source)) <$> us)) this.
Proof.
  revert this. induction us as [|u us IH]; intros this; simpl.
  - rewrite app_nil_r. by destruct this.
  - rewrite IH. destruct this; unfold set_schemaSources; simpl.
    by rewrite <- app_assoc.
Qed.

(** What a call does, in one piece: it throws exactly when the source has
  neither [schema] nor [uris], and otherwise records the schema under
  every fragment-stripped URI and one pair per URI. *)
Lemma addSource_eq source this :
  addSource source this =
    let this1 :=
      if decide (isConverted source = Some true) then this else set_needIR true this in
    let us := normalizedURIs (uriPath this) (uris source) in
    match schema source, uris source with
    | None, None =>
        (Raised (AssertionFailed "URIs must be given if schema source is not specified"),
         this1)
    | None, Some _ =>
        (Ok tt,
         set_schemaSources (_schemaSources this ++ ((λ u, (u, source)) <$> us)) this1)
    | Some text, _ =>
        (Ok tt,
         set_schemaSources (_schemaSources this ++ ((λ u, (u, source)) <$> us))
           (set_schemaInputs
              (foldl (λ m u, <[withoutHash u := text]> m) (_schemaInputs this) us)
              this1))
    end.
Proof.
  destruct source as [n us text c]. unfold addSource. cbn [schema uris isConverted].
  destruct (decide (c = Some true)) as [Hc|Hc]; exec.
  - destruct text as [text|]; [|destruct us as [us|]]; exec.
    + rewrite forEachSync_modify. exec. rewrite forEachSync_modify.
      by rewrite foldl_set_schemaInputs, foldl_set_schemaSources.
    + rewrite forEachSync_modify. by rewrite foldl_set_schemaSources.
    + done.
  - destruct text as [text|]; [|destruct us as [us|]]; exec.
    + rewrite forEachSync_modify. exec. rewrite forEachSync_modify.
      by rewrite foldl_set_schemaInputs, foldl_set_schemaSources.
    + rewrite forEachSync_modify. by rewrite foldl_set_schemaSources.
    + done.
Qed.

(** C6, evaluated where it fails: a source with an empty list of URIs and
  no schema brings neither literal text nor any URI, and [addSource]
  returns without throwing; nothing of the source is recorded. *)
Theorem C6_empty_uris_not_rejected n c this :
  ∃ this',
    addSource (mkSource n (Some []) None c) this = (Ok tt, this')
    ∧ _schemaSources this' = _schemaSources this
    ∧ _schemaInputs this' = _schemaInputs this.
Proof.
  rewrite addSource_eq. cbn [schema uris isConverted normalizedURIs].
  eexists. split; [done|]. simpl. rewrite app_nil_r.
  by destruct (decide (c = Some true)).
Qed.

(** The assertion fails exactly on a source that has neither a [schema]
  nor a [uris] field. *)
Lemma addSource_throws_iff source this :
  (∃ e this', addSource source this = (Raised e, this'))
  ↔ schema source = None ∧ uris source = None.
Proof.
  rewrite addSource_eq.
  destruct (schema source) as [text|], (uris source) as [us|]; simpl;
    split; try (intros (? & ? & [=])); try (intros [[=] [=]]); eauto.
Qed.

(** A URI that names a document keeps its own path. *)
Lemma normalizedURIs_named p u :
  withoutHash (URI_normalize (URI_new u)) ≠ "" →
  normalizedURIs p (Some [u]) = [URI_normalize (URI_new u)].
Proof. intros Hu. unfold normalizedURIs. simpl. by rewrite decide_False. Qed.

(** C7, amended. Two [addSource] calls on a new [JSONSchemaInput] that
  bring literal text under two URIs with the same fragment-stripped
  normalized form [k], [k] not empty, leave exactly one entry in
  [_schemaInputs]: it is keyed by [k] and holds the text of the later
  call. *)
Theorem C7_one_entry_per_document given producers n1 n2 u1 u2 text1 text2 c1 c2 k :
  withoutHash (URI_normalize (URI_new u1)) = k →
  withoutHash (URI_normalize (URI_new u2)) = k →
  k ≠ "" →
  ∃ this',
    addSources [mkSource n1 (Some [u1]) (Some text1) c1;
                mkSource n2 (Some [u2]) (Some text2) c2]
      (new given producers) = (Ok tt, this')
    ∧ _schemaInputs this' = {[ k := text2 ]}
    ∧ size (_schemaInputs this') = 1.
Proof.
  intros Hu1 Hu2 Hk. unfold addSources. cbn [forEachSync].
  erewrite bind_Ok; [|by rewrite addSource_eq].
  erewrite bind_Ok; [|by rewrite addSource_eq].
  eexists. split; [done|]. cbn [schema uris].
  rewrite !normalizedURIs_named by congruence. simpl.
  rewrite Hu1, Hu2, insert_insert_eq, insert_empty.
  split; [done|]. by rewrite map_size_singleton.
Qed.





(** ** JSONSchemaInput: finishAddingInputs *)

Lemma set_topLevels_twice m1 m2 this :
  set_topLevels m2 (set_topLevels m1 this) = set_topLevels m2 this.
Proof. done. Qed.

Lemma addTopLevels_loop (refs : Immutable.OrderedMap Ref) this :
  forEachSync refs (λ '(refName, ref), addTopLevel refName ref) this
  = (Ok tt, set_topLevels (setAll refs (_topLevels this)) this).
Proof.
  revert this. induction refs as [|[refName ref] refs IH]; intros this.
  - by destruct this.
  - cbn [forEachSync]. erewrite bind_Ok; [|done]. by rewrite IH.
Qed.


(** With any other number of them, every reference goes under the name
  the resolution step supplies. *)
Lemma resolveSource_among store pair this refs :
  length (_schemaSources this) ≠ 1 →
  resolution this store pair = inr refs →
  resolveSource store pair this
  = (Ok tt, set_topLevels (setAll (resolved refs) (_topLevels this)) this).
Proof.
  destruct pair as [u source]. unfold resolution, resolveSource. simpl.
  intros Hmany Hrefs. exec. rewrite Hrefs. exec.
  destruct refs as [refName ref|refs]; exec.
  - by rewrite bool_decide_eq_false_2.
  - apply addTopLevels_loop.
Qed.

Lemma resolveSources_among store pairs refss this :
  length (_schemaSources this) ≠ 1 →
  Forall2 (λ pair refs, resolution this store pair = inr refs) pairs refss →
  forEachSync pairs (resolveSource store) this
  = (Ok tt, set_topLevels (setAll (concat (resolved <$> refss)) (_topLevels this)) this).
Proof.
  intros Hmany Hall. revert this Hmany Hall.
  induction pairs as [|pair pairs IH] in refss |- *; intros this Hmany Hall.
  - apply Forall2_nil_inv_l in Hall as ->. by destruct this.
  - apply Forall2_cons_inv_l in Hall as (refs & refss' & Hrefs & Hall & ->).
    cbn [forEachSync].
    erewrite bind_Ok; [|by apply resolveSource_among].
    rewrite (IH refss'); [|done|done].
    rewrite set_topLevels_twice. simpl. unfold setAll. by rewrite foldl_app.
Qed.

(** The store is settled first, then the sources are resolved in turn. *)
Lemma finishAddingInputs_eq this store :
  _schemaSources this ≠ [] →
  activeStore this = Some store →
  finishAddingInputs this
  = forEachSync (_schemaSources this) (resolveSource store)
      (if bool_decide (size (_schemaInputs this) = 0) then this
       else set_schemaStore (Some store) this).
Proof.
  unfold finishAddingInputs, activeStore. intros Hsources Hstore. exec.
  rewrite bool_decide_eq_false_2 by (by destruct (_schemaSources this)).
  case_bool_decide; exec.
  - by rewrite Hstore.
  - by inversion Hstore.
Qed.



(** ** JSONSchemaInput: addTypes *)

Lemma forEachSync_preserves {S A} (P : S → Prop) (body : A → Exec S unit) xs :
  (∀ x s r s', body x s = (r, s') → P s → P s') →
  ∀ s r s', forEachSync xs body s = (r, s') → P s → P s'.
Proof.
  intros Hbody. induction xs as [|x xs IH]; intros s r s'; cbn [forEachSync].
  - by intros [= _ <-].
  - unfold mbind, Exec_bind.
    destruct (body x s) as [[[]|e] s1] eqn:Hx.
    + intros Hrest Hs. eapply IH; [done|]. by eapply Hbody.
    + intros [= _ <-] Hs. by eapply Hbody.
Qed.

Lemma resolveSource_schemaStore store pair this r this' :
  resolveSource store pair this = (r, this') →
  _schemaStore this' = _schemaStore this.
Proof.
  destruct pair as [u source]. unfold resolveSource. exec.
  destruct (refsInSchemaForURI _ _ _ _) as [e|[refName ref|refs]]; exec.
  - by intros [= _ <-].
  - by intros [= _ <-].
  - rewrite addTopLevels_loop. by intros [= _ <-].
Qed.

(** No call takes the store away. *)
Lemma perform_schemaStore c this :
  is_Some (_schemaStore this) → is_Some (_schemaStore (perform c this).2).
Proof.
  intros Hstore. destruct c as [source|]; simpl.
  - rewrite addSource_eq.
    destruct (schema source), (uris source), (decide _); simpl; done.
  - unfold finishAddingInputs. exec.
    destruct (bool_decide (length _ = 0)); exec; [done|].
    destruct (bool_decide (size _ = 0)); exec.
    + destruct Hstore as [store Hstore]. rewrite Hstore. exec.
      destruct (forEachSync _ _ _) as [r this'] eqn:Hloop. simpl.
      eapply (forEachSync_preserves (λ s, is_Some (_schemaStore s))); [|done|by eauto].
      intros pair s r' s' Hstep. by rewrite (resolveSource_schemaStore _ _ _ _ _ Hstep).
    + destruct (forEachSync _ _ _) as [r this'] eqn:Hloop. simpl.
      eapply (forEachSync_preserves (λ s, is_Some (_schemaStore s))); [|done|by eauto].
      intros pair s r' s' Hstep. by rewrite (resolveSource_schemaStore _ _ _ _ _ Hstep).
Qed.

Lemma afterCalls_schemaStore calls this :
  is_Some (_schemaStore this) → is_Some (_schemaStore (afterCalls calls this)).
Proof.
  revert this. induction calls as [|c calls IH]; intros this Hstore; simpl; [done|].
  by apply IH, perform_schemaStore.
Qed.

Lemma afterSources_untouched sources this :
  _schemaStore (afterSources sources this) = _schemaStore this
  ∧ _topLevels (afterSources sources this) = _topLevels this.
Proof.
  revert this. induction sources as [|source sources IH]; intros this; simpl; [done|].
  destruct (IH (addSource source this).2) as [-> ->]. rewrite addSource_eq.
  destruct (schema source), (uris source), (decide _); simpl; done.
Qed.

(** C9, amended. When a schema store was given to the constructor,
  [addTypes] never takes the branch in which [defined] panics, in any
  order of [addSource] and [finishAddingInputs] calls before it: it hands
  the collaborator the store and the top levels as they are, which are
  none and the given store if only [addSource] was called. *)
Theorem C9_addTypes_with_given_store given producers typeBuilder :
  (∀ calls,
     let this := afterCalls calls (new (Some given) producers) in
     ∃ store, _schemaStore this = Some store
              ∧ addTypes typeBuilder this = (materialize typeBuilder store this, this))
  ∧ (∀ sources,
       let this := afterSources sources (new (Some given) producers) in
       _topLevels this = []
       ∧ addTypes typeBuilder this = (materialize typeBuilder given this, this)).
Proof.
  assert (∀ this store, _schemaStore this = Some store →
            addTypes typeBuilder this = (materialize typeBuilder store this, this))
    as Hdefined.
  { intros this store Hstore. unfold addTypes, materialize, await. exec.
    rewrite Hstore. exec. by destruct (addTypesInSchema _ _ _ _ _). }
  split.
  - intros calls this.
    destruct (afterCalls_schemaStore calls (new (Some given) producers)) as [store Hstore];
      [by eauto|].
    exists store. split; [done|]. by apply Hdefined.
  - intros sources this.
    destruct (afterSources_untouched sources (new (Some given) producers)) as [Hstore Htop].
    split; [done|]. by apply Hdefined.
Qed.

(** ** JSONSchemaInput: singleStringSchemaSource *)

Lemma isString_asString (text : option StringInput) :
  isString text = true → text = Some (SIString (asString text)).
Proof. by destruct text as [[]|]. Qed.

(** C5, amended. [singleStringSchemaSource] answers a string exactly when
  at least one (URI, source) pair is recorded and the source of every
  recorded pair gave its schema as that one string (a string, not a
  stream); otherwise it answers "none"; it never throws. *)
Theorem C5_single_schema_string this :
  (∀ s, singleStringSchemaSource this = Ok (Some s)
        ↔ _schemaSources this ≠ []
          ∧ ∀ pair, pair ∈ _schemaSources this → schema pair.2 = Some (SIString s))
  ∧ (singleStringSchemaSource this = Ok None
     ∨ ∃ s, singleStringSchemaSource this = Ok (Some s)).
Proof.
  unfold singleStringSchemaSource.
  set (texts := (λ '(_, source), asString (schema source)) <$> _schemaSources this).
  destruct (forallb _ _) eqn:Hevery; simpl.
  - (* every source has a string *)
    assert (∀ pair, pair ∈ _schemaSources this →
              schema pair.2 = Some (SIString (asString (schema pair.2)))) as Hstrings.
    { intros [u source] Hin. apply isString_asString.
      apply Is_true_true_2 in Hevery.
      rewrite forallb_True, Forall_forall in Hevery.
      apply Is_true_true_1. by apply (Hevery (u, source)). }
    assert (∀ s, Immutable.of_list id texts = [s]
                 ↔ _schemaSources this ≠ []
                   ∧ ∀ pair, pair ∈ _schemaSources this →
                             schema pair.2 = Some (SIString s)) as Hone.
    { intros s. rewrite of_list_singleton. unfold texts. split.
      - intros [Hne Hall]. split.
        + intros Hnil. by rewrite Hnil in Hne.
        + intros pair Hin. rewrite (Hstrings pair Hin). do 2 f_equal.
          apply Hall. apply list_elem_of_fmap. exists pair. by destruct pair.
      - intros [Hne Hall]. split.
        + by destruct (_schemaSources this).
        + intros y Hy. apply list_elem_of_fmap in Hy as ([u source] & -> & Hin).
          specialize (Hall _ Hin). simpl in Hall. by rewrite Hall. }
    destruct (Immutable.of_list id texts) as [|a [|b rest]] eqn:Hset; simpl.
    + split; [|by left]. intros s. rewrite <- Hone. split; intros [=].
    + split; [|by eauto]. intros s. rewrite <- Hone. split; intros [= ->]; done.
    + split; [|by left]. intros s. rewrite <- Hone. split; intros [=].
  - (* some source has none *)
    split; [|by left]. intros s. split; [done|]. intros [_ Hall]. exfalso.
    apply Is_true_false_2 in Hevery. apply Hevery.
    rewrite forallb_True, Forall_forall. intros [u source] Hin.
    specialize (Hall _ Hin). simpl in Hall. by rewrite Hall.
Qed.

End JSONSchemaInputFacts.

(** ** InputData *)

Section InputDataFacts.
Context `{CompressedJSONOps} `{SchemaOps}.
Import InputData.

Implicit Types (this : t) (input : Input).

Lemma Input_singleStringSchemaSource_Ok input :
  ∃ answer, Input_singleStringSchemaSource input = Ok answer.
Proof.
  destruct input as [i|i]; simpl; [by eauto|].
  unfold JSONSchemaInput.singleStringSchemaSource.
  destruct (negb _); [by eauto|].
  destruct (Immutable.of_list id _) as [|a [|b rest]]; simpl; eauto.
Qed.

Lemma mapM_answers (inputs : list (nat * Input)) :
  mapM (λ i, Input_singleStringSchemaSource i.2) inputs
  = Ok ((λ i, match Input_singleStringSchemaSource i.2 with
              | Ok answer => answer
              | Raised _ => None
              end) <$> inputs).
Proof.
  induction inputs as [|[identity input] inputs IH]; [done|].
  cbn [mapM]. rewrite IH. simpl.
  by destruct (Input_singleStringSchemaSource_Ok input) as [answer ->].
Qed.

(** The strings left in [schemaStrings]: each reported string once. *)
Lemma schemaStrings_spec (answers : list (option string)) :
  let schemaStrings := filter (λ s, s ≠ None) (Immutable.of_list id answers) in
  NoDup schemaStrings
  ∧ ∀ a, a ∈ schemaStrings ↔ ∃ s, a = Some s ∧ s ∈ omap id answers.
Proof.
  simpl. split.
  - apply NoDup_filter, of_list_id_NoDup.
  - intros a. rewrite list_elem_of_filter, elem_of_of_list. split.
    + intros [Hsome Hin]. destruct a as [s|]; [|done]. exists s. split; [done|].
      apply list_elem_of_omap. by exists (Some s).
    + intros (s & -> & Hin). apply list_elem_of_omap in Hin as (x & Hin & Hx).
      simpl in Hx. subst x. done.
Qed.

(** C4. [InputData.singleStringSchemaSource] drops the "none" answers of
  the processors.  If two different literal schema strings are reported
  it panics; if strings are reported and they are all the same one, by
  however many processors, it returns that string; if none is reported
  it returns "none". *)
Theorem C4_single_string_schema_source this :
  ((∃ s s', s ∈ reported this ∧ s' ∈ reported this ∧ s ≠ s') →
     singleStringSchemaSource this
     = Raised (Panic "We have more than one input with a string schema source"))
  ∧ (∀ s, reported this ≠ [] → (∀ s', s' ∈ reported this → s' = s) →
          singleStringSchemaSource this = Ok (Some s))
  ∧ (reported this = [] → singleStringSchemaSource this = Ok None).
Proof.
  unfold singleStringSchemaSource, reported. rewrite mapM_answers.
  set (answers := _ <$> _inputs this).
  assert (omap (λ i, match Input_singleStringSchemaSource i.2 with
                     | Ok answer => answer
                     | Raised _ => None
                     end) (_inputs this) = omap id answers) as ->.
  { unfold answers. induction (_inputs this) as [|i l IH]; [done|].
    csimpl. rewrite IH. by destruct (Input_singleStringSchemaSource _) as [[?|]|]. }
  cbn [mbind result_bind].
  destruct (schemaStrings_spec answers) as [Hnd Hin].
  destruct (filter _ (Immutable.of_list id answers)) as [|a [|b rest]] eqn:Hset; simpl.
  - (* nothing reported *)
    assert (omap id answers = []) as ->.
    { destruct (omap id answers) as [|s l]; [done|].
      assert (Some s ∈ @nil (option string)) as Hs
        by (apply Hin; exists s; split; [done|left]).
      by apply elem_of_nil in Hs. }
    split; [|split]; [|done|done].
    intros (s & s' & Hs & _). by apply elem_of_nil in Hs.
  - (* one string reported *)
    assert (a ∈ [a]) as Ha by left.
    apply Hin in Ha as (s0 & -> & Hs0).
    assert (∀ s, s ∈ omap id answers → s = s0) as Hall.
    { intros s Hs. assert (Some s ∈ [Some s0]) as Hs' by (apply Hin; eauto).
      apply list_elem_of_singleton in Hs'. by inversion Hs'. }
    split; [|split].
    + intros (s & s' & Hs & Hs' & Hne). apply Hall in Hs, Hs'. congruence.
    + intros s _ Hsame. by rewrite (Hsame s0 Hs0).
    + intros Hnil. rewrite Hnil in Hs0. by apply elem_of_nil in Hs0.
  - (* two of them *)
    assert (a ∈ a :: b :: rest) as Ha by left.
    assert (b ∈ a :: b :: rest) as Hb by (right; left).
    apply Hin in Ha as (sa & -> & Hsa). apply Hin in Hb as (sb & -> & Hsb).
    assert (sa ≠ sb) as Hne.
    { intros ->. apply NoDup_cons in Hnd as [Hnotin _]. apply Hnotin. left. }
    split; [done|]. split.
    + intros s _ Hsame. exfalso. apply Hne.
      by rewrite (Hsame sa Hsa), (Hsame sb Hsb).
    + intros Hnil. rewrite Hnil in Hsa. by apply elem_of_nil in Hsa.
Qed.

(** A processor keeps its kind whatever it is fed. *)
Lemma Input_addSource_kind source input r input' :
  Input_addSource source input = (r, input') → Input_kind input' = Input_kind input.
Proof.
  destruct input as [i|i], source as [src|src]; unfold Input_addSource; cbv beta iota.
  - destruct (JSONInput.addSource src i). by intros [= _ <-].
  - by intros [= _ <-].
  - destruct (JSONSchemaInput.addSource _ i). by intros [= _ <-].
  - destruct (JSONSchemaInput.addSource _ i). by intros [= _ <-].
Qed.

Lemma store_same_kind identity input input' (inputs : list (nat * Input)) j :
  find (λ i, bool_decide (i.1 = identity)) inputs = Some (j, input) →
  Input_kind input' = Input_kind input →
  (store identity input' inputs).*1 = inputs.*1
  ∧ (λ i, Input_kind i.2) <$> store identity input' inputs
    = (λ i, Input_kind i.2) <$> inputs.
Proof.
  intros Hfind Hkind. induction inputs as [|[i o] inputs IH]; [done|].
  simpl in *. destruct (decide (i = identity)) as [->|Hne].
  - rewrite bool_decide_eq_true_2 in Hfind by done. inversion Hfind; subst.
    simpl. by rewrite Hkind.
  - rewrite bool_decide_eq_false_2 in Hfind by done.
    destruct (IH Hfind) as [Hids Hkinds]. csimpl. by rewrite Hids, Hkinds.
Qed.

Lemma call_addSource_registry identity source this r this' :
  call identity (Input_addSource source) this = (r, this') →
  identities this' = identities this ∧ kinds this' = kinds this.
Proof.
  unfold call, identities, kinds.
  destruct (find _ (_inputs this)) as [[j input]|] eqn:Hfind.
  - destruct (Input_addSource source input) as [r' input'] eqn:Hcall.
    intros [= _ <-]. simpl. eapply store_same_kind; [done|].
    by eapply Input_addSource_kind.
  - by intros [= _ <-].
Qed.

Lemma find_kind_None kind this :
  find (λ i, bool_decide (Input_kind i.2 = kind)) (_inputs this) = None
  ↔ kind ∉ kinds this.
Proof.
  unfold kinds. induction (_inputs this) as [|[i o] inputs IH]; simpl.
  - split; [|done]. intros _ Hin. by apply elem_of_nil in Hin.
  - rewrite not_elem_of_cons. case_bool_decide as Hk; simpl.
    + split; [done|]. by intros [Hne _].
    + rewrite IH. split; [|tauto]. intros Hout. split; [congruence|done].
Qed.

Lemma fresh_not_registered this : fresh this ∉ identities this.
Proof.
  unfold fresh, identities. intros Hin. apply max_list_elem_of_le in Hin. lia.
Qed.

(** What a call does to the registry: nothing when a processor of the
  kind is registered, one more entry when none is. *)
Lemma addSource_registry kind source makeInput this :
  let this' := (addSource kind source makeInput this).2 in
  (kind ∈ kinds this →
     identities this' = identities this ∧ kinds this' = kinds this)
  ∧ (kind ∉ kinds this →
       identities this' = identities this ++ [fresh this]
       ∧ kinds this' = kinds this ++ [Input_kind makeInput]).
Proof.
  simpl. unfold addSource. exec.
  destruct (find _ (_inputs this)) as [[identity input]|] eqn:Hfind; exec.
  - assert (kind ∈ kinds this) as Hin.
    { destruct (decide (kind ∈ kinds this)) as [|Hout]; [done|].
      apply find_kind_None in Hout. congruence. }
    split; [|done]. intros _.
    destruct (call identity _ this) as [r this'] eqn:Hcall. cbn [snd].
    by apply call_addSource_registry in Hcall.
  - apply find_kind_None in Hfind. split; [done|]. intros _.
    unfold addInput. exec.
    destruct (call _ _ _) as [r this'] eqn:Hcall. cbn [snd].
    apply call_addSource_registry in Hcall as [-> ->].
    unfold identities, kinds, Immutable.add. simpl.
    rewrite decide_False by apply fresh_not_registered.
    by rewrite !fmap_app.
Qed.

Lemma addSource_NoDup_kinds kind source makeInput this :
  Input_kind makeInput = kind →
  NoDup (kinds this) →
  NoDup (kinds (addSource kind source makeInput this).2).
Proof.
  intros Hkind Hnd.
  destruct (addSource_registry kind source makeInput this) as [Hreuse Hmake].
  destruct (decide (kind ∈ kinds this)) as [Hin|Hout].
  - by destruct (Hreuse Hin) as [_ ->].
  - destruct (Hmake Hout) as [_ ->]. rewrite Hkind.
    apply NoDup_app. split; [done|]. split.
    + intros k Hk. rewrite list_elem_of_singleton. by intros ->.
    + apply NoDup_singleton.
Qed.


End InputDataFacts.

(** ** The properties at concrete inputs *)

Module Examples.
Import SimpleURI TitledSchemas.




(** *** JSONInput *)

(** C8 at two calls for "Person", of two samples and of one. *)
Lemma C8_witness :
  let sources :=
    [JSONInput.mkSource "Person" [SIString "[1]"; SIString "[2]"] None;
     JSONInput.mkSource "Person" [SIReadable "[3]"] (Some "people")] in
  Forall (λ source, JSONInput.name source = "Person") sources
  ∧ @JSONInput.parseAll TextJSON.ops 0 (concat (JSONInput.source_samples <$> sources))
    = Some (["[1]"; "[2]"; "[3]"], 3)
  ∧ ∃ this',
      JSONInput.addSources sources (@JSONInput.new TextJSON.ops 0) = (Ok tt, this')
      ∧ JSONInput.samplesOf "Person" this' = ["[1]"; "[2]"; "[3]"]
      ∧ length (JSONInput.samplesOf "Person" this') = 3.
Proof.
  split; [repeat constructor|]. split; [reflexivity|].
  refine (@C8_samples_in_submission_order TextJSON.ops "Person"
            [JSONInput.mkSource "Person" [SIString "[1]"; SIString "[2]"] None;
             JSONInput.mkSource "Person" [SIReadable "[3]"] (Some "people")]
            (@JSONInput.new TextJSON.ops 0) ["[1]"; "[2]"; "[3]"] 3 _ _).
  - repeat constructor.
  - reflexivity.
Defined.

(** C10 at a call whose second sample of three is empty. *)
Lemma C10_witness :
  let source :=
    JSONInput.mkSource "Person" [SIString "[1]"; SIString ""; SIString "[3]"]
      (Some "people") in
  JSONInput.source_samples source = [SIString "[1]"] ++ SIString "" :: [SIString "[3]"]
  ∧ @JSONInput.parseAll TextJSON.ops 0 [SIString "[1]"] = Some (["[1]"], 1)
  ∧ @readFromStream TextJSON.ops 1 (SIString "") = (1, inl "Unexpected end of JSON input")
  ∧ ∃ this',
      JSONInput.addSource source (@JSONInput.new TextJSON.ops 0)
      = (Raised (MessageError "MiscJSONParseError"
                   [("description", "people"); ("address", "Person");
                    ("message", "Unexpected end of JSON input")]),
         this')
      ∧ JSONInput.samplesOf "Person" this' = ["[1]"]
      ∧ length ["[1]"] = 1
      ∧ ([SIString "[1]"] ≠ [] → ∀ text, Some "people" = Some text →
           JSONInput.descriptionOf "Person" this' = Some text)
      ∧ ([SIString "[1]"] ≠ [] → JSONInput._topLevels this' ≠ []).
Proof.
  split; [reflexivity|]. split; [reflexivity|]. split; [reflexivity|].
  apply (@C10_addSource_not_atomic TextJSON.ops
           (JSONInput.mkSource "Person" [SIString "[1]"; SIString ""; SIString "[3]"]
              (Some "people"))
           (@JSONInput.new TextJSON.ops 0) [SIString "[1]"] (SIString "") [SIString "[3]"]
           ["[1]"] 1 1 "Unexpected end of JSON input");
    reflexivity.
Defined.

(** *** JSONSchemaInput *)





(** C5 fails for two sources with different literal texts of which one
  has an empty list of URIs: it is not recorded, and the text of the other
  is the answer.  It also fails for a single source that brings its
  schema as a stream: the one text there is, is not the answer. *)
Lemma C5_counterexample :
  let A := JSONSchemaInput.mkSource "A" (Some []) (Some (SIString "{}")) None in
  let B := JSONSchemaInput.mkSource "B" None (Some (SIString "[]")) None in
  let C := JSONSchemaInput.mkSource "C" None (Some (SIReadable "{}")) None in
  (∃ this,
     JSONSchemaInput.addSources [A; B] (JSONSchemaInput.new None []) = (Ok tt, this)
     ∧ JSONSchemaInput.schema A ≠ JSONSchemaInput.schema B
     ∧ JSONSchemaInput.singleStringSchemaSource this = Ok (Some "[]"))
  ∧ (∃ this,
       JSONSchemaInput.addSources [C] (JSONSchemaInput.new None []) = (Ok tt, this)
       ∧ JSONSchemaInput.schema C ≠ None
       ∧ JSONSchemaInput.singleStringSchemaSource this = Ok None).
Proof.
  split.
  - eexists. split; [vm_compute; reflexivity|]. split; [done|].
    vm_compute. reflexivity.
  - eexists. split; [vm_compute; reflexivity|]. split; [done|].
    vm_compute. reflexivity.
Qed.

(** C6 at the source that has an empty list of URIs and nothing else. *)
Lemma C6_failing_input :
  JSONSchemaInput.addSource (JSONSchemaInput.mkSource "A" (Some []) None None)
    (JSONSchemaInput.new None [])
  = (Ok tt, JSONSchemaInput.set_needIR true (JSONSchemaInput.new None [])).
Proof. vm_compute. reflexivity. Qed.

(** C7 fails for URIs that are only a fragment: each call keys its text
  by its own synthetic path. *)
Lemma C7_counterexample :
  let A := JSONSchemaInput.mkSource "A" (Some ["#frag1"]) (Some (SIString "{}")) None in
  let B := JSONSchemaInput.mkSource "B" (Some ["#frag2"]) (Some (SIString "{}")) None in
  ∃ this,
    JSONSchemaInput.addSources [A; B] (JSONSchemaInput.new None []) = (Ok tt, this)
    ∧ JSONSchemaInput.withoutHash (URI_normalize (URI_new "#frag1"))
      = JSONSchemaInput.withoutHash (URI_normalize (URI_new "#frag2"))
    ∧ JSONSchemaInput._schemaInputs this
      = {[ "-1" := SIString "{}"; "-2" := SIString "{}" ]}
    ∧ size (JSONSchemaInput._schemaInputs this) = 2.
Proof. eexists. repeat split; vm_compute; reflexivity. Qed.

(** C7 at [a#frag1] and [a#frag2]. *)
Lemma C7_witness :
  JSONSchemaInput.withoutHash (URI_normalize (URI_new "a#frag1")) = "a"
  ∧ JSONSchemaInput.withoutHash (URI_normalize (URI_new "a#frag2")) = "a"
  ∧ "a" ≠ ""
  ∧ ∃ this',
      JSONSchemaInput.addSources
        [JSONSchemaInput.mkSource "A" (Some ["a#frag1"]) (Some (SIString "{}")) None;
         JSONSchemaInput.mkSource "B" (Some ["a#frag2"]) (Some (SIString "{}")) None]
        (JSONSchemaInput.new None []) = (Ok tt, this')
      ∧ JSONSchemaInput._schemaInputs this' = {[ "a" := SIString "{}" ]}
      ∧ size (JSONSchemaInput._schemaInputs this') = 1.
Proof.
  split; [reflexivity|]. split; [reflexivity|]. split; [done|].
  apply (C7_one_entry_per_document None [] "A" "B" "a#frag1" "a#frag2");
    [reflexivity|reflexivity|done].
Defined.

(** C9 fails when no store was given to the constructor: [addTypes]
  before [finishAddingInputs] panics, with a source submitted or without. *)
Lemma C9_counterexample :
  let A := JSONSchemaInput.mkSource "A" None (Some (SIString "{}")) None in
  let this := JSONSchemaInput.afterSources [A] (JSONSchemaInput.new None []) in
  JSONSchemaInput.addTypes [] this
  = (Raised (Panic "Defined value expected, but got undefined"), this)
  ∧ JSONSchemaInput.addTypes [] (JSONSchemaInput.new None [])
    = (Raised (Panic "Defined value expected, but got undefined"),
       JSONSchemaInput.new None []).
Proof. split; vm_compute; reflexivity. Qed.

(** *** InputData *)



(** C4 at a registry of three processors of which two report the same
  schema string, and at one in which they report different ones. *)
Lemma C4_witness :
  let schemaInput text :=
    InputData.Schema
      (JSONSchemaInput.afterSources
         [JSONSchemaInput.mkSource "A" None (Some (SIString text)) None]
         (JSONSchemaInput.new None [])) in
  let json := InputData.JSON (@JSONInput.new TextJSON.ops 0) in
  let same := InputData.mk [(1, json); (2, schemaInput "{}"); (3, schemaInput "{}")] in
  let different := InputData.mk [(1, json); (2, schemaInput "{}"); (3, schemaInput "[]")] in
  InputData.reported same = ["{}"; "{}"]
  ∧ InputData.singleStringSchemaSource same = Ok (Some "{}")
  ∧ InputData.reported different = ["{}"; "[]"]
  ∧ InputData.singleStringSchemaSource different
    = Raised (Panic "We have more than one input with a string schema source")
  ∧ InputData.singleStringSchemaSource (InputData.mk [(1, json)]) = Ok None.
Proof.
  intros schemaInput json same different.
  assert (InputData.reported same = ["{}"; "{}"]) as Hsame by reflexivity.
  assert (InputData.reported different = ["{}"; "[]"]) as Hdifferent by reflexivity.
  split; [done|]. split; [|split; [done|split]].
  - apply (proj1 (proj2 (C4_single_string_schema_source same))).
    + by rewrite Hsame.
    + rewrite Hsame. intros s' Hs'.
      apply elem_of_cons in Hs' as [->|Hs']; [done|].
      by apply list_elem_of_singleton in Hs'.
  - apply (proj1 (C4_single_string_schema_source different)).
    exists "{}", "[]". rewrite Hdifferent. split; [left|]. split; [right; left|done].
  - by apply (proj2 (proj2 (C4_single_string_schema_source (InputData.mk [(1, json)])))).
Defined.

End Examples.

(** * Further properties of the code *)

(** ** OrderedMap, continued *)

Section MoreOrderedMapFacts.
Context {V : Type}.
Implicit Types (m : Immutable.OrderedMap V) (k : string).

Lemma get_None_keys k m : Immutable.get k m = None ↔ k ∉ m.*1.
Proof.
  induction m as [|[k' v'] m IH]; simpl.
  - split; [|done]. intros _ Hin. by apply elem_of_nil in Hin.
  - rewrite not_elem_of_cons. destruct (decide (k = k')) as [->|Hne].
    + split; [done|]. by intros [? _].
    + rewrite IH. tauto.
Qed.

Lemma get_set_other k k' v m :
  k ≠ k' → Immutable.get k' (Immutable.set k v m) = Immutable.get k' m.
Proof.
  intros Hne. induction m as [|[k1 v1] m IH]; simpl.
  - by rewrite decide_False.
  - destruct (decide (k = k1)) as [->|]; simpl.
    + by rewrite !decide_False.
    + by rewrite IH.
Qed.

Lemma get_mutate_other f k k' m :
  k ≠ k' → Immutable.get k' (Immutable.mutate f k m) = Immutable.get k' m.
Proof.
  intros Hne. induction m as [|[k1 v1] m IH]; simpl; [done|].
  destruct (decide (k = k1)) as [->|]; simpl.
  - by rewrite !decide_False.
  - by rewrite IH.
Qed.

Lemma mutate_keys f k m : (Immutable.mutate f k m).*1 = m.*1.
Proof.
  induction m as [|[k1 v1] m IH]; simpl; [done|].
  destruct (decide (k = k1)); csimpl; [done|]. by rewrite IH.
Qed.

Lemma mutate_absent f k m : Immutable.get k m = None → Immutable.mutate f k m = m.
Proof.
  induction m as [|[k1 v1] m IH]; simpl; [done|].
  destruct (decide (k = k1)); [done|]. intros Hget. by rewrite IH.
Qed.

Lemma mutate_mutate f g k m :
  Immutable.mutate f k (Immutable.mutate g k m) = Immutable.mutate (f ∘ g) k m.
Proof.
  induction m as [|[k1 v1] m IH]; simpl; [done|].
  destruct (decide (k = k1)) as [->|]; simpl.
  - by rewrite decide_True.
  - by rewrite decide_False, IH.
Qed.

Lemma set_absent k v m : Immutable.get k m = None → Immutable.set k v m = m ++ [(k, v)].
Proof.
  induction m as [|[k1 v1] m IH]; simpl; [done|].
  destruct (decide (k = k1)); [done|]. intros Hget. by rewrite IH.
Qed.

Lemma set_present k v m : is_Some (Immutable.get k m) → (Immutable.set k v m).*1 = m.*1.
Proof.
  induction m as [|[k1 v1] m IH]; simpl; [by intros [? [=]]|].
  destruct (decide (k = k1)) as [->|]; csimpl; [done|]. intros Hget. by rewrite IH.
Qed.

Lemma mutate_app_absent f k v m :
  Immutable.get k m = None →
  Immutable.mutate f k (m ++ [(k, v)]) = m ++ [(k, f v)].
Proof.
  induction m as [|[k1 v1] m IH]; simpl.
  - by rewrite decide_True.
  - destruct (decide (k = k1)); [done|]. intros Hget. by rewrite IH.
Qed.

Lemma mutate_Forall (Q : V → Prop) f k m :
  (∀ v, Q v → Q (f v)) →
  Forall (λ e, Q e.2) m → Forall (λ e, Q e.2) (Immutable.mutate f k m).
Proof.
  intros Hf. induction 1 as [|[k1 v1] m Hv Hm IH]; simpl; [done|].
  destruct (decide (k = k1)); constructor; simpl in *; auto.
Qed.

(** What [set] does to the keys: an absent key goes last, a present one
  stays where it is. *)
Lemma set_keys k v m : (Immutable.set k v m).*1 = Immutable.add id k (m.*1).
Proof.
  unfold Immutable.add. rewrite list_fmap_id. simpl.
  destruct (Immutable.get k m) as [v'|] eqn:Hget.
  - rewrite set_present by eauto. rewrite decide_True; [done|].
    destruct (decide (k ∈ m.*1)) as [|Hout]; [done|].
    apply get_None_keys in Hout. congruence.
  - rewrite set_absent by done. rewrite decide_False by by apply get_None_keys.
    by rewrite fmap_app.
Qed.

End MoreOrderedMapFacts.

Lemma add_id_idempotent {A} `{EqDecision A} (x : A) (s : list A) :
  Immutable.add id x (Immutable.add id x s) = Immutable.add id x s.
Proof.
  unfold Immutable.add. rewrite !list_fmap_id. simpl.
  destruct (decide (x ∈ s)) as [Hin|Hout].
  - by rewrite decide_True.
  - rewrite decide_True; [done|]. apply elem_of_app. right.
    by apply list_elem_of_singleton.
Qed.

(** ** JSONInput, continued *)

Section MoreJSONInputFacts.
Context `{CompressedJSONOps}.
Import JSONInput.

Implicit Types (this : t) (n : string) (d : option string).

(** The set of [n] after one more sample: its samples with the sample
  appended, under the description of the source if it has one. *)
Lemma withSample_eq n v d (m : Immutable.OrderedMap JSONTopLevel) :
  let record tl :=
    {| samples := samples tl ++ [v];
       description := from_option Some (description tl) d |} in
  withSample n v d m
  = match Immutable.get n m with
    | Some _ => Immutable.mutate record n m
    | None => m ++ [(n, record {| samples := []; description := None |})]
    end.
Proof.
  simpl. unfold withSample.
  destruct (Immutable.get n m) as [tl|] eqn:Hget.
  - destruct d; [by rewrite mutate_mutate|done].
  - rewrite set_absent by done. rewrite mutate_app_absent by done.
    destruct d; [by rewrite mutate_app_absent|done].
Qed.

Lemma withSample_other n n' v d (m : Immutable.OrderedMap JSONTopLevel) :
  n ≠ n' → Immutable.get n' (withSample n v d m) = Immutable.get n' m.
Proof.
  intros Hne. unfold withSample.
  assert (Immutable.get n'
            (match Immutable.get n m with
             | Some _ => m
             | None => Immutable.set n {| samples := []; description := None |} m
             end) = Immutable.get n' m) as Hcreated.
  { destruct (Immutable.get n m); [done|]. by apply get_set_other. }
  destruct d; rewrite ?get_mutate_other by done; by rewrite Hcreated.
Qed.

Lemma withSample_same n v d (m : Immutable.OrderedMap JSONTopLevel) :
  Immutable.get n (withSample n v d m)
  = Some {| samples :=
              match Immutable.get n m with Some tl => samples tl | None => [] end ++ [v];
            description :=
              from_option Some (Immutable.get n m ≫= description) d |}.
Proof.
  rewrite withSample_eq. simpl.
  destruct (Immutable.get n m) as [tl|] eqn:Hget.
  - by rewrite get_mutate_eq, Hget.
  - assert (∀ (l : Immutable.OrderedMap JSONTopLevel) x,
              Immutable.get n l = None → Immutable.get n (l ++ [(n, x)]) = Some x) as Hlast.
    { intros l x. induction l as [|[k1 v1] l IH]; simpl.
      - by rewrite decide_True.
      - destruct (decide (n = k1)); [done|]. apply IH. }
    by rewrite Hlast.
Qed.

Lemma withSample_names n v d (m : Immutable.OrderedMap JSONTopLevel) :
  (withSample n v d m).*1 = Immutable.add id n (m.*1).
Proof.
  unfold withSample. destruct d; rewrite !mutate_keys.
  - destruct (Immutable.get n m) as [tl|] eqn:Hget; [|apply set_keys].
    rewrite <- (set_keys n tl). symmetry. apply set_present. eauto.
  - destruct (Immutable.get n m) as [tl|] eqn:Hget; [|apply set_keys].
    rewrite <- (set_keys n tl). symmetry. apply set_present. eauto.
Qed.

Lemma withSample_nonempty n v d (m : Immutable.OrderedMap JSONTopLevel) :
  Forall (λ e, samples e.2 ≠ []) m →
  Forall (λ e, samples e.2 ≠ []) (withSample n v d m).
Proof.
  intros Hm. rewrite withSample_eq. simpl.
  destruct (Immutable.get n m).
  - apply (mutate_Forall (λ tl, samples tl ≠ [])); [|done].
    intros tl _. simpl. by destruct (samples tl).
  - apply Forall_app. split; [done|]. by repeat constructor.
Qed.

(** One round of the loop, whatever the parser says. *)
Lemma addSource_one n x d this :
  addSource (mkSource n [x] d) this
  = match readFromStream (_compressedJSON this) x with
    | (cj, inl message) =>
        (Raised (MessageError "MiscJSONParseError"
                   [("description", withDefault d "input");
                    ("address", n); ("message", message)]),
         {| _compressedJSON := cj; _topLevels := _topLevels this |})
    | (cj, inr v) =>
        (Ok tt, {| _compressedJSON := cj; _topLevels := withSample n v d (_topLevels this) |})
    end.
Proof.
  unfold addSource, readSample, addSample, setDescription, withSample. exec.
  destruct (readFromStream (_compressedJSON this) x) as [cj [message|v]]; exec; [done|].
  destruct d as [text|]; exec; [|done].
  rewrite get_mutate_eq.
  destruct (Immutable.get n (_topLevels this)) eqn:Hget; simpl.
  - by rewrite Hget.
  - by rewrite get_set_eq.
Qed.

(** What every round of the loop keeps, the whole call keeps, however it
  ends. *)
Lemma addSource_keeps (P : t → Prop) n d :
  (∀ this x, P this → P (addSource (mkSource n [x] d) this).2) →
  ∀ samples this, P this → P (addSource (mkSource n samples d) this).2.
Proof.
  intros Hstep samples. induction samples as [|x rest IH]; intros this HP; [done|].
  specialize (Hstep this x HP).
  destruct (addSource (mkSource n [x] d) this) as [[[]|e] this1] eqn:Hone.
  - rewrite (addSource_cons_Ok _ _ _ _ _ _ Hone). by apply IH.
  - change (x :: rest) with ([x] ++ rest).
    by rewrite (addSource_app_Raised _ _ _ _ _ _ _ Hone).
Qed.

Lemma afterSources_keeps (P : t → Prop) :
  (∀ n d this x, P this → P (addSource (mkSource n [x] d) this).2) →
  ∀ sources this, P this → P (afterSources sources this).
Proof.
  intros Hstep sources. induction sources as [|[n samples d] sources IH];
    intros this HP; [done|].
  change (P (afterSources sources (addSource (mkSource n samples d) this).2)).
  apply IH. exact (addSource_keeps P n d (Hstep n d) samples this HP).
Qed.

(** Samples that all parse, in terms of the top levels. *)
Lemma addSource_parsed_topLevels n samples d this values cj' :
  parseAll (_compressedJSON this) samples = Some (values, cj') →
  addSource (mkSource n samples d) this
  = (Ok tt,
     {| _compressedJSON := cj';
        _topLevels := foldl (λ m v, withSample n v d m) (_topLevels this) values |}).
Proof.
  revert this values. induction samples as [|x rest IH]; intros this values Hparse.
  - simpl in Hparse. inversion Hparse; subst. by destruct this.
  - simpl in Hparse. pose proof (addSource_one n x d this) as Hone.
    destruct (readFromStream (_compressedJSON this) x) as [cj1 [message|v]]; [done|].
    destruct (parseAll cj1 rest) as [[values' cj2]|] eqn:Hrest; [|done].
    simpl in Hparse. inversion Hparse; subst.
    rewrite (addSource_cons_Ok _ _ _ _ _ _ Hone). by rewrite (IH _ values').
Qed.

Lemma parseAll_length cj samples values cj' :
  parseAll cj samples = Some (values, cj') → length values = length samples.
Proof.
  revert cj values. induction samples as [|x rest IH]; intros cj values; simpl.
  - by intros [= <- _].
  - destruct (readFromStream cj x) as [cj1 [?|v]]; [done|].
    destruct (parseAll cj1 rest) as [[values' cj2]|] eqn:Hrest; [|done].
    simpl. intros [= <- <-]. simpl. by rewrite (IH _ _ Hrest).
Qed.

Lemma addSources_parsed_topLevels sources this valuess cj' :
  parseEach (_compressedJSON this) sources = Some (valuess, cj') →
  addSources sources this
  = (Ok tt,
     {| _compressedJSON := cj';
        _topLevels :=
          foldl (λ m p, foldl (λ m v, withSample (name p.1) v (source_description p.1) m)
                          m p.2)
            (_topLevels this) (zip sources valuess) |}).
Proof.
  unfold addSources. revert this valuess.
  induction sources as [|[n samples d] sources IH]; intros this valuess Hparse.
  - simpl in Hparse. inversion Hparse; subst. by destruct this.
  - cbn [parseEach source_samples] in Hparse.
    destruct (parseAll (_compressedJSON this) samples) as [[values cj1]|] eqn:Hfirst;
      [|done].
    simpl in Hparse.
    destruct (parseEach cj1 sources) as [[valuess' cj2]|] eqn:Hrest; [|done].
    simpl in Hparse. inversion Hparse; subst.
    cbn [forEachSync]. erewrite bind_Ok; [|by apply addSource_parsed_topLevels].
    by rewrite (IH _ valuess').
Qed.

Lemma samples_after_values n n' d values (m : Immutable.OrderedMap JSONTopLevel) :
  match Immutable.get n (foldl (λ m v, withSample n' v d m) m values) with
  | Some tl => samples tl
  | None => []
  end
  = match Immutable.get n m with Some tl => samples tl | None => [] end
    ++ (if decide (n' = n) then values else []).
Proof.
  revert m. induction values as [|v values IH]; intros m; simpl.
  - destruct (decide (n' = n)); by rewrite app_nil_r.
  - rewrite IH. destruct (decide (n' = n)) as [->|Hne].
    + rewrite withSample_same. simpl. by rewrite <- app_assoc.
    + by rewrite withSample_other.
Qed.

Lemma names_after_values n d values (m : Immutable.OrderedMap JSONTopLevel) :
  (foldl (λ m v, withSample n v d m) m values).*1
  = if values is [] then m.*1 else Immutable.add id n (m.*1).
Proof.
  revert m. induction values as [|v values IH]; intros m; simpl; [done|].
  rewrite IH. destruct values; rewrite withSample_names; [done|].
  apply add_id_idempotent.
Qed.


(** X2. A call touches the TopLevelSampleSet of the name of its source
  only: the set of every other name is afterwards what it was, whether the
  call returned or threw. *)
Theorem X2_addSource_other_names_untouched (source : JSONSourceData) this n' :
  n' ≠ name source →
  Immutable.get n' (_topLevels (addSource source this).2)
  = Immutable.get n' (_topLevels this).
Proof.
  destruct source as [n samples d]. cbn [name]. intros Hne.
  apply (addSource_keeps
           (λ this', Immutable.get n' (_topLevels this')
                     = Immutable.get n' (_topLevels this))); [|done].
  intros this0 x Hthis0. rewrite addSource_one.
  destruct (readFromStream (_compressedJSON this0) x) as [cj [message|v]]; simpl;
    [done|].
  rewrite withSample_other by done. done.
Qed.

(** X3. Whatever sources a new [JSONInput] is fed, and whichever of the
  calls throw, no name has two TopLevelSampleSets and no
  TopLevelSampleSet is without a sample. *)
Theorem X3_topLevels_well_formed (sources : list JSONSourceData) cj :
  let this := afterSources sources (new cj) in
  NoDup (names this) ∧ Forall (λ e, samples e.2 ≠ []) (_topLevels this).
Proof.
  apply (afterSources_keeps
           (λ this, NoDup (names this)
                    ∧ Forall (λ e, samples e.2 ≠ []) (_topLevels this))).
  - intros n d this x [Hnd Hne]. rewrite addSource_one.
    destruct (readFromStream (_compressedJSON this) x) as [cj' [message|v]]; simpl;
      [done|].
    split; [|by apply withSample_nonempty].
    unfold names. simpl. rewrite withSample_names.
    pose proof (add_NoDup id n (names this)) as Hadd.
    rewrite !list_fmap_id in Hadd. by apply Hadd.
  - split; [apply NoDup_nil_2|constructor].
Qed.

(** X4. When the samples of a sequence of sources all parse, whatever
  names the sources have and in whatever order they come, the sample
  sequence of every name is afterwards what it was followed by the values
  of the sources of that name, in submission order. *)
Theorem X4_samples_per_name (sources : list JSONSourceData) this valuess cj' :
  parseEach (_compressedJSON this) sources = Some (valuess, cj') →
  ∃ this',
    addSources sources this = (Ok tt, this')
    ∧ ∀ n, samplesOf n this' = samplesOf n this ++ valuesFor n sources valuess.
Proof.
  intros Hparse. eexists. split; [by apply addSources_parsed_topLevels|].
  intros n. unfold samplesOf, valuesFor. simpl.
  assert (length sources = length valuess) as Hlen.
  { clear -Hparse. revert valuess Hparse. generalize (_compressedJSON this).
    induction sources as [|source sources IH]; intros cj valuess; simpl.
    - by intros [= <- _].
    - destruct (parseAll cj (source_samples source)) as [[values cj1]|]; [|done].
      simpl. destruct (parseEach cj1 sources) as [[valuess' cj2]|] eqn:Hrest; [|done].
      simpl. intros [= <- <-]. simpl. by rewrite (IH _ _ Hrest). }
  clear Hparse. generalize (_topLevels this). revert valuess Hlen.
  induction sources as [|source sources IH]; intros [|values valuess] Hlen m;
    simpl in *; try done.
  - by rewrite app_nil_r.
  - rewrite IH by lia. rewrite samples_after_values. by rewrite <- app_assoc.
Qed.

(** X5. When the samples of a sequence of sources all parse, the names
  with a TopLevelSampleSet are afterwards those there were, followed by
  the names of the sources that have at least one sample, each name once,
  in the order in which the names first came. *)
Theorem X5_names_in_order_of_first_sample (sources : list JSONSourceData) this valuess cj' :
  parseEach (_compressedJSON this) sources = Some (valuess, cj') →
  ∃ this',
    addSources sources this = (Ok tt, this')
    ∧ names this'
      = foldl (λ s n, Immutable.add id n s) (names this)
          (name <$> filter (λ source, source_samples source ≠ []) sources).
Proof.
  intros Hparse. eexists. split; [by apply addSources_parsed_topLevels|].
  unfold names. simpl. revert Hparse.
  generalize (_compressedJSON this), (_topLevels this). revert valuess.
  induction sources as [|source sources IH]; intros valuess cj m; simpl.
  - by intros [= <- _].
  - destruct (parseAll cj (source_samples source)) as [[values cj1]|] eqn:Hfirst;
      [|done].
    simpl. destruct (parseEach cj1 sources) as [[valuess' cj2]|] eqn:Hrest; [|done].
    simpl. intros [= <- <-]. simpl. rewrite (IH _ _ _ Hrest).
    rewrite names_after_values. apply parseAll_length in Hfirst.
    rewrite filter_cons. destruct (decide (source_samples source ≠ [])) as [Hne|Heq].
    + destruct values; [by destruct (source_samples source)|done].
    + destruct values; [done|]. destruct (source_samples source); [done|].
      by destruct Heq.
Qed.

(** X6. A call whose samples all parse leaves its name with the
  description of its source if it has one and at least one sample;
  otherwise the description of the name stays what it was.  A call
  without samples changes nothing. *)
Theorem X6_description_of_last_describing_call (source : JSONSourceData) this values cj' :
  parseAll (_compressedJSON this) (source_samples source) = Some (values, cj') →
  ∃ this',
    addSource source this = (Ok tt, this')
    ∧ descriptionOf (name source) this'
      = (if source_samples source is [] then descriptionOf (name source) this
         else from_option Some (descriptionOf (name source) this)
                (source_description source))
    ∧ (source_samples source = [] → this' = this).
Proof.
  destruct source as [n samples d]. cbn [name source_samples source_description].
  intros Hparse.
  destruct (addSource_parsed n samples d this values cj' Hparse)
    as (this' & Hcall & _ & _ & _ & Hdescr).
  exists this'. split; [done|]. split; [done|].
  intros ->. by inversion Hcall.
Qed.

End MoreJSONInputFacts.

Lemma bind_Raised_step {S A B} (m : Exec S A) (f : A → Exec S B) s e s' :
  m s = (Raised e, s') → (m ≫= f) s = (Raised e, s').
Proof. intros Hm. unfold mbind, Exec_bind. by rewrite Hm. Qed.

(** ** JSONSchemaInput, continued *)

Section MoreJSONSchemaInputFacts.
Context `{FetchOps}.
Import JSONSchemaInput.

Implicit Types (this : t) (source : JSONSchemaSourceData).

Lemma addSource_needIR source this :
  needIR (addSource source this).2
  = if decide (isConverted source = Some true) then needIR this else true.
Proof.
  rewrite addSource_eq. unfold needIR.
  by destruct (schema source), (uris source), (decide _).
Qed.

Lemma normalizedURIs_length p source :
  length (normalizedURIs p (uris source)) = uriCount source.
Proof.
  unfold normalizedURIs, uriCount. destruct (uris source); [|done].
  by rewrite length_fmap.
Qed.

Lemma addSource_Ok_sources source this this' :
  addSource source this = (Ok tt, this') →
  _schemaSources this'
  = _schemaSources this
    ++ ((λ u, (u, source)) <$> normalizedURIs (uriPath this) (uris source)).
Proof.
  rewrite addSource_eq.
  destruct (schema source), (uris source); cbv zeta; intros [= <-]; done.
Qed.

(** A round of the loop of [finishAddingInputs] changes the top levels
  and nothing else, however it ends. *)
Lemma resolveSource_frame store pair this :
  ∃ m, (resolveSource store pair this).2 = set_topLevels m this.
Proof.
  destruct pair as [u source]. unfold resolveSource. exec.
  destruct (refsInSchemaForURI _ _ _ _) as [e|[refName ref|refs]]; exec.
  - exists (_topLevels this). by destruct this.
  - by eexists.
  - rewrite addTopLevels_loop. by eexists.
Qed.

Lemma resolveSources_frame store pairs this :
  ∃ m, (forEachSync pairs (resolveSource store) this).2 = set_topLevels m this.
Proof.
  destruct (forEachSync pairs (resolveSource store) this) as [r this'] eqn:Hloop.
  apply (forEachSync_preserves (λ s, ∃ m, s = set_topLevels m this)) in Hloop; [done| |].
  - intros pair s r' s' Hstep [m ->].
    destruct (resolveSource_frame store pair (set_topLevels m this)) as [m' Hm'].
    rewrite Hstep in Hm'. simpl in Hm'. by exists m'.
  - exists (_topLevels this). by destruct this.
Qed.

(** The names of the top levels stay pairwise different through a round
  of the loop. *)
Lemma setAll_NoDup entries (m : Immutable.OrderedMap Ref) :
  NoDup m.*1 → NoDup (setAll entries m).*1.
Proof.
  revert m. induction entries as [|[n r] entries IH]; intros m Hm; simpl; [done|].
  apply IH. rewrite set_keys.
  pose proof (add_NoDup id n (m.*1)) as Hadd. rewrite !list_fmap_id in Hadd.
  by apply Hadd.
Qed.

Lemma resolveSource_NoDup store pair this :
  NoDup (_topLevels this).*1 → NoDup (_topLevels (resolveSource store pair this).2).*1.
Proof.
  intros Hnd. destruct pair as [u source]. unfold resolveSource. exec.
  destruct (refsInSchemaForURI _ _ _ _) as [e|[refName ref|refs]]; exec.
  - done.
  - by apply (setAll_NoDup [(_, ref)]).
  - rewrite addTopLevels_loop. simpl. by apply setAll_NoDup.
Qed.

Lemma finishAddingInputs_cases this :
  (_schemaSources this = [] ∧ finishAddingInputs this = (Ok tt, this))
  ∨ (_schemaSources this ≠ [] ∧ activeStore this = None
     ∧ finishAddingInputs this
       = (Raised (Panic "Must have a schema store to process JSON Schema"), this))
  ∨ (∃ store, _schemaSources this ≠ [] ∧ activeStore this = Some store
       ∧ finishAddingInputs this
         = forEachSync (_schemaSources this) (resolveSource store)
             (if bool_decide (size (_schemaInputs this) = 0) then this
              else set_schemaStore (Some store) this)).
Proof.
  destruct (_schemaSources this) as [|pair pairs] eqn:Hsources.
  - left. split; [done|]. unfold finishAddingInputs. exec. by rewrite Hsources.
  - right. destruct (activeStore this) as [store|] eqn:Hstore.
    + right. exists store. split; [done|]. split; [done|].
      rewrite <- Hsources. apply finishAddingInputs_eq; [by rewrite Hsources|done].
    + left. split; [done|]. split; [done|].
      unfold finishAddingInputs, activeStore in *. exec. rewrite Hsources. simpl.
      destruct (bool_decide (size (_schemaInputs this) = 0)); [|done].
      by rewrite Hstore.
Qed.

(** However a sequence of calls goes, the store is the one given to the
  constructor inside some number of [InputJSONSchemaStore]s. *)
Lemma afterCalls_store_wrapped given producers calls :
  ∃ n, _schemaStore (afterCalls calls (new given producers))
       = InputJSONSchemaStore.wrapped n given.
Proof.
  assert (∀ this, (∃ n, _schemaStore this = InputJSONSchemaStore.wrapped n given) →
                  ∃ n, _schemaStore (afterCalls calls this)
                       = InputJSONSchemaStore.wrapped n given) as Hinv.
  { induction calls as [|c calls IH]; intros this Hthis; [done|].
    simpl. apply IH. destruct Hthis as [n Hn]. destruct c as [source|]; simpl.
    - exists n. rewrite addSource_eq.
      by destruct (schema source), (uris source), (decide _).
    - destruct (finishAddingInputs_cases this)
        as [[_ ->]|[(_ & _ & ->)|(store & _ & Hstore & ->)]]; [by eauto..|].
      destruct (resolveSources_frame store (_schemaSources this)
                  (if bool_decide (size (_schemaInputs this) = 0) then this
                   else set_schemaStore (Some store) this)) as [m ->].
      unfold activeStore in Hstore. destruct (bool_decide _); simpl.
      + by exists n.
      + exists (S n). inversion Hstore. simpl. by rewrite Hn. }
  apply Hinv. by exists 0.
Qed.

(** X7. [needIR] is sticky: after any sequence of [addSource] calls on a
  new [JSONSchemaInput], throwing ones included, it is true exactly when
  some source of the sequence is not marked [isConverted: true]. *)
Theorem X7_needIR_iff_some_source_unconverted given producers
    (sources : list JSONSchemaSourceData) :
  needIR (afterSources sources (new given producers)) = true
  ↔ ∃ source, source ∈ sources ∧ isConverted source ≠ Some true.
Proof.
  assert (∀ this, needIR (afterSources sources this) = true
                  ↔ needIR this = true
                    ∨ ∃ source, source ∈ sources ∧ isConverted source ≠ Some true)
    as Hgen.
  { induction sources as [|source sources IH]; intros this.
    - simpl. split; [by left|]. intros [?|(? & Hin & _)]; [done|].
      by apply elem_of_nil in Hin.
    - change (afterSources (source :: sources) this)
        with (afterSources sources (addSource source this).2).
      rewrite IH, addSource_needIR. split.
      + intros [Hnow|(s & Hin & Hs)].
        * destruct (decide (isConverted source = Some true)); [by left|].
          right. exists source. split; [left|done].
        * right. exists s. split; [by right|done].
      + intros [Hthis|(s & Hin & Hs)].
        * left. by destruct (decide _).
        * apply elem_of_cons in Hin as [->|Hin].
          -- left. by rewrite decide_False.
          -- right. by exists s. }
  rewrite Hgen. simpl. split; [|by right]. by intros [?|?].
Qed.

(** X8. A call that throws records nothing: what it throws is the failed
  assertion, the source has neither [schema] nor [uris], and the cache,
  the recorded sources, the top levels and the store are what they
  were. *)
Theorem X8_failed_addSource_records_nothing source this e this' :
  addSource source this = (Raised e, this') →
  e = AssertionFailed "URIs must be given if schema source is not specified"
  ∧ schema source = None ∧ uris source = None
  ∧ _schemaInputs this' = _schemaInputs this
  ∧ _schemaSources this' = _schemaSources this
  ∧ _topLevels this' = _topLevels this
  ∧ _schemaStore this' = _schemaStore this.
Proof.
  rewrite addSource_eq.
  destruct (schema source), (uris source); simpl; intros [= <- <-];
    by destruct (decide _).
Qed.

(** X9. [finishAddingInputs] leaves the recorded sources, the cache,
  [needIR] and the attribute producers as they are, however it ends.  The
  store is afterwards the one it resolves against, also when a resolution
  throws; it is unchanged when there are no sources. *)
Theorem X9_finishAddingInputs_frame this :
  let this' := (finishAddingInputs this).2 in
  _schemaSources this' = _schemaSources this
  ∧ _schemaInputs this' = _schemaInputs this
  ∧ _needIR this' = _needIR this
  ∧ _attributeProducers this' = _attributeProducers this
  ∧ _schemaStore this'
    = (if _schemaSources this is [] then _schemaStore this else activeStore this).
Proof.
  simpl.
  destruct (finishAddingInputs_cases this)
    as [[Hnil ->]|[(Hsome & Hstore & ->)|(store & Hsome & Hstore & ->)]]; simpl.
  - by rewrite Hnil.
  - rewrite Hstore. destruct (_schemaSources this) eqn:Hsources; [done|].
    unfold activeStore in Hstore. revert Hstore. by destruct (bool_decide _).
  - destruct (resolveSources_frame store (_schemaSources this)
                (if bool_decide (size (_schemaInputs this) = 0) then this
                 else set_schemaStore (Some store) this)) as [m ->].
    rewrite Hstore. unfold activeStore in Hstore.
    destruct (_schemaSources this) eqn:Hsources; [done|]. revert Hstore.
    destruct (bool_decide _); simpl; intros Hstore; by rewrite Hsources.
Qed.

(** X10. Without sources [finishAddingInputs] does nothing, with or
  without a store.  With sources but neither literal text in the cache
  nor a store, it panics before it resolves anything and leaves the
  object as it is; there is a store to resolve against exactly when the
  cache is not empty or a store was given. *)
Theorem X10_finishAddingInputs_without_sources_or_store this :
  (_schemaSources this = [] → finishAddingInputs this = (Ok tt, this))
  ∧ (_schemaSources this ≠ [] → activeStore this = None →
       finishAddingInputs this
       = (Raised (Panic "Must have a schema store to process JSON Schema"), this))
  ∧ (activeStore this = None
     ↔ size (_schemaInputs this) = 0 ∧ _schemaStore this = None).
Proof.
  split; [|split].
  - intros Hnil.
    destruct (finishAddingInputs_cases this)
      as [[_ ->]|[(Hsome & _)|(store & Hsome & _)]]; done.
  - intros Hsome Hstore.
    destruct (finishAddingInputs_cases this)
      as [[Hnil _]|[(_ & _ & ->)|(store & _ & Hstore' & _)]]; [done|done|congruence].
  - unfold activeStore. case_bool_decide; split; try done.
    + by intros [].
    + by intros [? _].
Qed.

(** X11. In every order of [addSource] and [finishAddingInputs] calls on
  a new [JSONSchemaInput], whatever they return or throw, no two top
  levels have the same name. *)
Theorem X11_top_level_names_unique given producers calls :
  NoDup (_topLevels (afterCalls calls (new given producers))).*1.
Proof.
  assert (∀ this, NoDup (_topLevels this).*1 →
                  NoDup (_topLevels (afterCalls calls this)).*1) as Hinv.
  { induction calls as [|c calls IH]; intros this Hnd; [done|].
    simpl. apply IH. destruct c as [source|]; simpl.
    - rewrite addSource_eq.
      by destruct (schema source), (uris source), (decide _).
    - destruct (finishAddingInputs_cases this)
        as [[_ ->]|[(_ & _ & ->)|(store & _ & _ & ->)]]; [done..|].
      set (this0 := if bool_decide _ then this else _).
      assert (NoDup (_topLevels this0).*1) as Hnd0
        by (unfold this0; by destruct (bool_decide _)).
      destruct (forEachSync _ _ this0) as [r this'] eqn:Hloop. simpl.
      eapply (forEachSync_preserves (λ s, NoDup (_topLevels s).*1)); [|done|done].
      intros pair s r' s' Hstep Hs.
      pose proof (resolveSource_NoDup store pair s Hs) as Hs'.
      by rewrite Hstep in Hs'. }
  apply Hinv. simpl. apply NoDup_nil_2.
Qed.

(** X12. [addTopLevel] under a name already used overwrites: the name
  then maps to the new reference, every other name to what it did, and
  the names are those there were, with the name added last if it was not
  among them. *)
Theorem X12_addTopLevel_last_write_wins n (ref : Ref) this :
  let this' := (addTopLevel n ref this).2 in
  Immutable.get n (_topLevels this') = Some ref
  ∧ (∀ n', n ≠ n' →
       Immutable.get n' (_topLevels this') = Immutable.get n' (_topLevels this))
  ∧ (_topLevels this').*1 = Immutable.add id n (_topLevels this).*1.
Proof.
  simpl. split; [apply get_set_eq|]. split.
  - intros n' Hne. by apply get_set_other.
  - apply set_keys.
Qed.

(** X13. Sources that are all accepted are recorded in submission order,
  each as often as it brings URIs. *)
Theorem X13_sources_recorded_in_submission_order
    (sources : list JSONSchemaSourceData) this this' :
  addSources sources this = (Ok tt, this') →
  (_schemaSources this').*2
  = (_schemaSources this).*2
    ++ (sources ≫= λ source, replicate (uriCount source) source).
Proof.
  unfold addSources. revert this.
  induction sources as [|source sources IH]; intros this; cbn [forEachSync].
  - intros [= <-]. simpl. by rewrite app_nil_r.
  - unfold mbind at 1, Exec_bind.
    destruct (addSource source this) as [[[]|e] this1] eqn:Hcall; [|done].
    intros Hrest. rewrite (IH _ Hrest).
    rewrite (addSource_Ok_sources _ _ _ Hcall), fmap_app, <- app_assoc, bind_cons.
    do 2 f_equal. rewrite <- (normalizedURIs_length (uriPath this)).
    induction (normalizedURIs _ _) as [|u us IHus]; [done|]. csimpl. by rewrite IHus.
Qed.

(** X14. [finishAddingInputs] is not atomic: when the resolution of a
  recorded source throws, it throws the same, and the references of the
  sources before that one stay registered as top levels. *)
Theorem X14_finishAddingInputs_stops_at_first_failure this store pre bad post refss e :
  _schemaSources this = pre ++ bad :: post →
  activeStore this = Some store →
  Forall2 (λ pair refs, resolution this store pair = inr refs) pre refss →
  resolution this store bad = inl e →
  ∃ this',
    finishAddingInputs this = (Raised e, this')
    ∧ _topLevels this'
      = (if pre is [] then _topLevels this
         else setAll (concat (resolved <$> refss)) (_topLevels this)).
Proof.
  intros Hsources Hstore Hpre Hbad.
  rewrite (finishAddingInputs_eq this store); [|by rewrite Hsources; destruct pre|done].
  set (this0 := if bool_decide _ then this else _).
  assert (_schemaInputs this0 = _schemaInputs this
          ∧ _schemaSources this0 = _schemaSources this
          ∧ _topLevels this0 = _topLevels this) as (Hcache & Hsrc & Htop)
    by (unfold this0; by destruct (bool_decide _)).
  assert (∀ s, _schemaInputs s = _schemaInputs this →
               resolveSource store bad s = (Raised e, s)) as Hfail.
  { intros s Hs. destruct bad as [u source]. unfold resolveSource. exec.
    unfold resolution in Hbad. simpl in Hbad. by rewrite Hs, Hbad. }
  rewrite Hsources. destruct pre as [|p pre].
  - apply Forall2_nil_inv_l in Hpre as ->. simpl.
    exists this0. split; [|done].
    erewrite bind_Raised_step; [done|]. by apply Hfail.
  - assert (length (_schemaSources this0) ≠ 1) as Hmany.
    { rewrite Hsrc, Hsources. simpl. rewrite length_app. simpl. lia. }
    assert (Forall2 (λ pair refs, resolution this0 store pair = inr refs)
              (p :: pre) refss) as Hpre0.
    { eapply Forall2_impl; [done|]. intros pair refs. unfold resolution.
      by rewrite Hcache. }
    rewrite (forEachSync_app_Ok (p :: pre) (bad :: post) _ _ _
               (resolveSources_among store (p :: pre) refss this0 Hmany Hpre0)).
    eexists. split.
    + cbn [forEachSync]. erewrite bind_Raised_step; [done|]. by apply Hfail.
    + simpl. by rewrite Htop.
Qed.

End MoreJSONSchemaInputFacts.

(** ** InputJSONSchemaStore *)

Section InputJSONSchemaStoreFacts.
Context `{FetchOps}.
Import JSONSchemaInput InputJSONSchemaStore.

Implicit Types (this : t) (source : JSONSchemaSourceData).


Lemma fetch_miss_wrapped inputs n delegate store address :
  inputs !! address = None →
  wrapped n delegate = Some store →
  fetch inputs store address
  = match delegate with
    | Some given => fetch inputs given address
    | None => inl (Panic ("Schema URI " +:+ address +:+ " requested, but no store given"))
    end.
Proof.
  intros Hmiss. revert store. induction n as [|n IH]; intros store; simpl.
  - by intros ->.
  - intros [= <-]. simpl. rewrite Hmiss.
    destruct (wrapped n delegate) as [inner|] eqn:Hinner; [by apply IH|].
    destruct n; simpl in Hinner; [by rewrite Hinner|done].
Qed.

(** X15. [InputJSONSchemaStore]s around one another answer as one: each
  reads the same map of literal texts first, so [finishAddingInputs]
  wrapping the store once more every time it runs changes no answer. *)
Theorem X15_fetch_through_wrapped_stores inputs n delegate address :
  fetch inputs (InputJSONSchemaStore (wrapped n delegate)) address
  = fetch inputs (InputJSONSchemaStore delegate) address.
Proof.
  induction n as [|n IH]; [done|].
  change (wrapped (S n) delegate)
    with (Some (InputJSONSchemaStore (wrapped n delegate))).
  cbn [fetch] in *. by destruct (inputs !! address).
Qed.


(** X17. In every order of [addSource] and [finishAddingInputs] calls on a
  [JSONSchemaInput], an address that is not among the literal texts is
  answered by the store given to the constructor, and fetching it panics
  if none was given. *)
Theorem X17_uncached_address_goes_to_given_store
    (given : option GivenSchemaStore) producers calls store address :
  let this := afterCalls calls (new (GivenStore <$> given) producers) in
  _schemaStore this = Some store →
  _schemaInputs this !! address = None →
  fetch (_schemaInputs this) store address
  = match given with
    | Some given => fetchGiven given address
    | None => inl (Panic ("Schema URI " +:+ address +:+ " requested, but no store given"))
    end.
Proof.
  simpl. intros Hstore Hmiss.
  destruct (afterCalls_store_wrapped (GivenStore <$> given) producers calls) as [n Hn].
  rewrite Hstore in Hn. symmetry in Hn.
  rewrite (fetch_miss_wrapped _ n _ _ _ Hmiss Hn). by destruct given.
Qed.

End InputJSONSchemaStoreFacts.

Lemma NoDup_fst_functional {A B} (l : list (A * B)) x y1 y2 :
  NoDup l.*1 → (x, y1) ∈ l → (x, y2) ∈ l → y1 = y2.
Proof.
  induction l as [|[a b] l IH]; csimpl; intros Hnd H1 H2.
  - by apply elem_of_nil in H1.
  - apply NoDup_cons in Hnd as [Hout Hnd].
    apply elem_of_cons in H1 as [H1|H1]; apply elem_of_cons in H2 as [H2|H2].
    + congruence.
    + inversion H1; subst. destruct Hout. apply list_elem_of_fmap. by exists (a, y2).
    + inversion H2; subst. destruct Hout. apply list_elem_of_fmap. by exists (a, y1).
    + by apply IH.
Qed.

(** ** InputData, continued *)

Section MoreInputDataFacts.
Context `{CompressedJSONOps} `{SchemaOps}.
Import InputData.

Implicit Types (this : t) (input : Input).

Lemma Input_finishAddingInputs_kind input r input' :
  Input_finishAddingInputs input = (r, input') → Input_kind input' = Input_kind input.
Proof.
  destruct input as [i|i]; unfold Input_finishAddingInputs.
  - destruct (JSONInput.finishAddingInputs i). by intros [= _ <-].
  - destruct (JSONSchemaInput.finishAddingInputs i). by intros [= _ <-].
Qed.

Lemma call_keeps_registry {A} identity (method : Exec Input A) this :
  (∀ input r input', method input = (r, input') → Input_kind input' = Input_kind input) →
  identities (call identity method this).2 = identities this
  ∧ kinds (call identity method this).2 = kinds this.
Proof.
  intros Hkind. unfold call, identities, kinds.
  destruct (find _ (_inputs this)) as [[j input]|] eqn:Hfind; [|done].
  destruct (method input) as [r' input'] eqn:Hcall. simpl.
  eapply store_same_kind; [done|]. by eapply Hkind.
Qed.

Lemma store_other identity input' (inputs : list (nat * Input)) entry :
  entry ∈ inputs → entry.1 ≠ identity → entry ∈ store identity input' inputs.
Proof.
  intros Hin Hne. induction inputs as [|[i o] inputs IH]; [done|].
  simpl. apply elem_of_cons in Hin as [->|Hin].
  - simpl in Hne. rewrite decide_False by done. left.
  - destruct (decide (i = identity)); right; [done|]. by apply IH.
Qed.

Lemma call_other {A} identity (method : Exec Input A) this entry :
  entry ∈ _inputs this → entry.1 ≠ identity →
  entry ∈ _inputs (call identity method this).2.
Proof.
  intros Hin Hne. unfold call.
  destruct (find _ (_inputs this)) as [[j input]|]; [|done].
  destruct (method input) as [r input']. simpl. by apply store_other.
Qed.

Lemma store_found identity input (inputs : list (nat * Input)) j :
  find (λ i, bool_decide (i.1 = identity)) inputs = Some (j, input) →
  store identity input inputs = inputs.
Proof.
  induction inputs as [|[i o] inputs IH]; [done|]. simpl.
  destruct (decide (i = identity)) as [->|Hne].
  - rewrite bool_decide_eq_true_2 by done. by intros [= _ ->].
  - rewrite bool_decide_eq_false_2 by done. intros Hfind. by rewrite IH.
Qed.

Lemma find_kind_Some kind this entry :
  find (λ i, bool_decide (Input_kind i.2 = kind)) (_inputs this) = Some entry →
  entry ∈ _inputs this ∧ Input_kind entry.2 = kind.
Proof.
  intros Hfind. apply find_some in Hfind as [Hin Hkind].
  split; [by apply list_elem_of_In|]. by apply bool_decide_eq_true_1 in Hkind.
Qed.

Lemma finishAddingInputs_registry this :
  identities (finishAddingInputs this).2 = identities this
  ∧ kinds (finishAddingInputs this).2 = kinds this.
Proof.
  unfold finishAddingInputs. exec.
  destruct (forEachSync _ _ this) as [r this'] eqn:Hloop. simpl.
  eapply (forEachSync_preserves
            (λ s, identities s = identities this ∧ kinds s = kinds this));
    [|done|done].
  intros [identity input] s r' s' Hstep [Hids Hkinds].
  pose proof (call_keeps_registry identity Input_finishAddingInputs s
                Input_finishAddingInputs_kind) as [Hids' Hkinds'].
  rewrite Hstep in Hids', Hkinds'. simpl in *. by rewrite Hids', Hkinds'.
Qed.

(** What a step does to the registry: the registered processors stay, in
  their order and of their kind, and at most one is added after them,
  with an identity that was not there. *)
Lemma perform_registry c this :
  NoDup (identities this) →
  NoDup (identities (perform c this).2)
  ∧ identities this `prefix_of` identities (perform c this).2
  ∧ kinds this `prefix_of` kinds (perform c this).2.
Proof.
  intros Hnd. destruct c as [[i o]|kind source makeInput|]; simpl.
  - unfold identities, kinds, Immutable.add. simpl.
    destruct (decide (i ∈ (_inputs this).*1)) as [Hin|Hout]; [done|].
    rewrite !fmap_app. split; [|split; by apply prefix_app_r].
    apply NoDup_app. split; [done|]. split; [|apply NoDup_singleton].
    intros x Hx. simpl. rewrite list_elem_of_singleton. by intros ->.
  - destruct (addSource_registry kind source makeInput this) as [Hreuse Hmake].
    destruct (decide (kind ∈ kinds this)) as [Hin|Hout].
    + by destruct (Hreuse Hin) as [-> ->].
    + destruct (Hmake Hout) as [-> ->]. split; [|split; by apply prefix_app_r].
      apply NoDup_app. split; [done|]. split; [|apply NoDup_singleton].
      intros x Hx. rewrite list_elem_of_singleton. intros ->.
      by apply (fresh_not_registered this).
  - by destruct (finishAddingInputs_registry this) as [-> ->].
Qed.

Lemma afterSteps_NoDup steps : NoDup (identities (afterSteps steps new)).
Proof.
  assert (∀ this, NoDup (identities this) → NoDup (identities (afterSteps steps this)))
    as Hinv.
  { induction steps as [|c steps IH]; intros this Hnd; [done|].
    simpl. apply IH. by apply perform_registry. }
  apply Hinv. apply NoDup_nil_2.
Qed.

(** X18. In every session on a new [InputData], however its calls end, no
  two registered processors are the same object, and a call never removes
  a processor, reorders the processors or changes the kind of one: it
  leaves them as they are or registers one more after them. *)
Theorem X18_registry_grows_at_the_end steps c :
  let this := afterSteps steps new in
  NoDup (identities this)
  ∧ identities this `prefix_of` identities (perform c this).2
  ∧ kinds this `prefix_of` kinds (perform c this).2.
Proof.
  simpl. split; [apply afterSteps_NoDup|].
  apply perform_registry, afterSteps_NoDup.
Qed.

(** X19. The factory is asked only when no processor of the kind is
  registered: with one registered, the call is the same whatever the
  factory would make. *)
Theorem X19_factory_unused_when_kind_registered kind source makeInput makeInput' this :
  kind ∈ kinds this →
  addSource kind source makeInput this = addSource kind source makeInput' this.
Proof.
  intros Hin. unfold addSource. exec.
  destruct (find _ (_inputs this)) as [[identity input]|] eqn:Hfind; [done|].
  apply find_kind_None in Hfind. done.
Qed.

(** X20. [addSource] feeds the processor of the kind asked for and no
  other: in every session on a new [InputData], a registered processor of
  another kind is afterwards registered in the state it was in, whether
  the call returned or threw. *)
Theorem X20_addSource_other_kinds_untouched steps kind source makeInput entry :
  let this := afterSteps steps new in
  entry ∈ _inputs this →
  Input_kind entry.2 ≠ kind →
  entry ∈ _inputs (addSource kind source makeInput this).2.
Proof.
  simpl. set (this := afterSteps steps new). intros Hin Hkind.
  pose proof (afterSteps_NoDup steps) as Hnd. fold this in Hnd.
  unfold addSource. exec.
  destruct (find _ (_inputs this)) as [[identity input]|] eqn:Hfind; exec.
  - apply find_kind_Some in Hfind as [Hfound Hsame]. simpl in Hsame.
    apply call_other; [done|]. intros Heq. apply Hkind. rewrite <- Hsame.
    destruct entry as [i o]. simpl in *. subst i.
    by rewrite (NoDup_fst_functional _ identity o input Hnd Hin Hfound).
  - unfold addInput, modify. simpl. apply call_other.
    + unfold Immutable.add. simpl. destruct (decide _); [done|].
      apply elem_of_app. by left.
    + intros Heq. apply (fresh_not_registered this). rewrite <- Heq.
      apply list_elem_of_fmap. by exists entry.
Qed.

(** X21. Registration is not undone: a call for a kind that has no
  processor registers the one the factory makes, after the others and
  under a new identity, also when feeding it the source throws. *)
Theorem X21_new_processor_stays_registered kind source makeInput this :
  kind ∉ kinds this →
  identities (addSource kind source makeInput this).2 = identities this ++ [fresh this]
  ∧ kinds (addSource kind source makeInput this).2
    = kinds this ++ [Input_kind makeInput]
  ∧ fresh this ∉ identities this.
Proof.
  intros Hout. destruct (addSource_registry kind source makeInput this) as [_ Hmake].
  destruct (Hmake Hout) as [-> ->]. split; [done|]. split; [done|].
  apply fresh_not_registered.
Qed.

Lemma needIR_iff this :
  needIR this = true ↔ ∃ entry, entry ∈ _inputs this ∧ Input_needIR entry.2 = true.
Proof.
  unfold needIR. induction (_inputs this) as [|e l IH]; simpl.
  - split; [done|]. intros (? & Hin & _). by apply elem_of_nil in Hin.
  - rewrite orb_true_iff, IH. split.
    + intros [He|(x & Hin & Hx)]; [exists e; split; [left|done]|].
      exists x. split; [by right|done].
    + intros (x & Hin & Hx). apply elem_of_cons in Hin as [->|Hin]; [by left|].
      right. by exists x.
Qed.

Lemma store_needIR identity input' (inputs : list (nat * Input)) j input :
  find (λ i, bool_decide (i.1 = identity)) inputs = Some (j, input) →
  (Input_needIR input = true → Input_needIR input' = true) →
  existsb (λ i, Input_needIR i.2) inputs = true →
  existsb (λ i, Input_needIR i.2) (store identity input' inputs) = true.
Proof.
  intros Hfind Hmono. induction inputs as [|[i o] inputs IH]; [done|].
  simpl in *. destruct (decide (i = identity)) as [->|Hne].
  - rewrite bool_decide_eq_true_2 in Hfind by done. inversion Hfind; subst.
    simpl. rewrite !orb_true_iff. intros [?|?]; [left; by apply Hmono|by right].
  - rewrite bool_decide_eq_false_2 in Hfind by done. simpl.
    rewrite !orb_true_iff. intros [?|?]; [by left|right; by apply IH].
Qed.

Lemma call_needIR {A} identity (method : Exec Input A) this :
  (∀ input, Input_needIR input = true → Input_needIR (method input).2 = true) →
  needIR this = true → needIR (call identity method this).2 = true.
Proof.
  intros Hmono Hthis. unfold call, needIR in *.
  destruct (find _ (_inputs this)) as [[j input]|] eqn:Hfind; [|done].
  specialize (Hmono input). destruct (method input) as [r input']. simpl in *.
  by eapply store_needIR.
Qed.

Lemma Input_addSource_needIR source input :
  Input_needIR input = true → Input_needIR (Input_addSource source input).2 = true.
Proof.
  destruct input as [i|i], source as [src|src]; unfold Input_addSource; cbv beta iota.
  - by destruct (JSONInput.addSource src i).
  - done.
  - intros Hi.
    pose proof (addSource_needIR (JSONSchemaInput.mkSource (JSONInput.name src) None None None) i)
      as Hneed.
    destruct (JSONSchemaInput.addSource _ i) as [r i']. by simpl in *.
  - intros Hi. pose proof (addSource_needIR src i) as Hneed.
    destruct (JSONSchemaInput.addSource src i) as [r i']. simpl in *.
    rewrite Hneed. by destruct (decide _).
Qed.

Lemma Input_finishAddingInputs_needIR input :
  Input_needIR input = true → Input_needIR (Input_finishAddingInputs input).2 = true.
Proof.
  destruct input as [i|i]; unfold Input_finishAddingInputs; [done|].
  intros Hi.
  assert (JSONSchemaInput._needIR (JSONSchemaInput.finishAddingInputs i).2
          = JSONSchemaInput._needIR i) as Hframe.
  { destruct (finishAddingInputs_cases i)
      as [[_ ->]|[(_ & _ & ->)|(store & _ & _ & ->)]]; [done..|].
    destruct (resolveSources_frame store (JSONSchemaInput._schemaSources i)
                (if bool_decide (size (JSONSchemaInput._schemaInputs i) = 0) then i
                 else JSONSchemaInput.set_schemaStore (Some store) i)) as [m ->].
    by destruct (bool_decide _). }
  destruct (JSONSchemaInput.finishAddingInputs i) as [r i']. simpl in *.
  unfold JSONSchemaInput.needIR in *. by rewrite Hframe.
Qed.

(** X22. The session needs schema processing exactly when a
  [JSONSchemaInput] is registered, and it needs IR as soon as a
  [JSONInput] is; once it needs IR it keeps needing it through every call,
  however the call ends. *)
Theorem X22_needIR_and_needSchemaProcessing this :
  (needSchemaProcessing this = true ↔ "schema" ∈ kinds this)
  ∧ ("json" ∈ kinds this → needIR this = true)
  ∧ (∀ c, needIR this = true → needIR (perform c this).2 = true).
Proof.
  split; [|split].
  - unfold needSchemaProcessing, kinds.
    induction (_inputs this) as [|[i o] l IH]; simpl.
    + split; [done|]. intros Hin. by apply elem_of_nil in Hin.
    + rewrite elem_of_cons, orb_true_iff, IH. destruct o; simpl; split.
      * intros [?|?]; [done|by right].
      * intros [?|?]; [done|by right].
      * by left.
      * by left.
  - intros Hin. apply needIR_iff. unfold kinds in Hin.
    apply list_elem_of_fmap in Hin as ([i o] & Hkind & Hin).
    exists (i, o). split; [done|]. by destruct o.
  - intros c Hthis. destruct c as [[i o]|kind source makeInput|]; simpl.
    + unfold needIR, Immutable.add in *. simpl. destruct (decide _); [done|].
      rewrite existsb_app, orb_true_iff. by left.
    + unfold addSource. exec.
      destruct (find _ (_inputs this)) as [[identity input]|]; exec.
      * apply call_needIR; [apply Input_addSource_needIR|done].
      * apply call_needIR; [apply Input_addSource_needIR|].
        unfold needIR, Immutable.add in *. simpl. destruct (decide _); [done|].
        rewrite existsb_app, orb_true_iff. by left.
    + unfold finishAddingInputs. exec.
      destruct (forEachSync _ _ this) as [r this'] eqn:Hloop. simpl.
      eapply (forEachSync_preserves (λ s, needIR s = true)); [|done|done].
      intros [identity input] s r' s' Hstep Hs.
      pose proof (call_needIR identity Input_finishAddingInputs s
                    Input_finishAddingInputs_needIR Hs) as Hs'.
      by rewrite Hstep in Hs'.
Qed.

(** With one processor per kind, at most one string is reported. *)
Lemma reported_at_most_one this :
  NoDup (kinds this) → length (reported this) ≤ 1.
Proof.
  unfold kinds, reported.
  assert (∀ l : list (nat * Input),
            "schema" ∉ (λ i, Input_kind i.2) <$> l →
            omap (λ i, match Input_singleStringSchemaSource i.2 with
                       | Ok answer => answer
                       | Raised _ => None
                       end) l = []) as Hjson.
  { intros l. induction l as [|[i o] l IH]; [done|]. csimpl.
    rewrite not_elem_of_cons. intros [Hne Hout]. destruct o; [|done].
    simpl. by apply IH. }
  induction (_inputs this) as [|[i o] l IH]; csimpl; [lia|].
  intros Hnd. apply NoDup_cons in Hnd as [Hout Hnd]. destruct o; simpl.
  - by apply IH.
  - rewrite (Hjson l Hout). destruct (JSONSchemaInput.singleStringSchemaSource _) as [[?|]|];
      simpl; lia.
Qed.

(** X23. In a session that fills the registry through [addSource] alone,
  with factories that make a processor of the kind asked for,
  [singleStringSchemaSource] never panics: at most one literal schema
  string is reported, and it is the answer, "none" if there is none. *)
Theorem X23_no_panic_with_one_processor_per_kind (calls : list sourceCall) :
  Forall ofItsKind calls →
  let this := afterAddSources calls new in
  length (reported this) ≤ 1
  ∧ singleStringSchemaSource this = Ok (head (reported this)).
Proof.
  intros Hcalls. simpl. set (this := afterAddSources calls new).
  assert (NoDup (kinds this)) as Hnd.
  { assert (∀ this0, NoDup (kinds this0) → NoDup (kinds (afterAddSources calls this0)))
      as Hinv.
    { clear this. induction Hcalls as [|[[kind source] makeInput] calls Hcall _ IH];
        intros this0 Hnd; simpl; [done|].
      by apply IH, addSource_NoDup_kinds. }
    apply Hinv, NoDup_nil_2. }
  pose proof (reported_at_most_one this Hnd) as Hone. split; [done|].
  unfold singleStringSchemaSource. rewrite mapM_answers. cbn [mbind result_bind].
  set (answers := _ <$> _inputs this).
  assert (reported this = omap id answers) as Hreported.
  { unfold reported, answers. induction (_inputs this) as [|i l IH]; [done|].
    csimpl. rewrite IH. by destruct (Input_singleStringSchemaSource _) as [[?|]|]. }
  rewrite Hreported in *.
  destruct (schemaStrings_spec answers) as [Hnodup Hin]. simpl in Hnodup, Hin.
  destruct (filter _ (Immutable.of_list id answers)) as [|a [|b rest]] eqn:Hset; simpl.
  - destruct (omap id answers) as [|s l]; [done|].
    assert (Some s ∈ @nil (option string)) as Hs
      by (apply Hin; exists s; split; [done|left]).
    by apply elem_of_nil in Hs.
  - assert (a ∈ [a]) as Ha by left. apply Hin in Ha as (s0 & -> & Hs0).
    destruct (omap id answers) as [|s [|s' l]]; simpl in *.
    + by apply elem_of_nil in Hs0.
    + apply list_elem_of_singleton in Hs0. by subst.
    + lia.
  - exfalso.
    assert (a ∈ a :: b :: rest) as Ha by left.
    assert (b ∈ a :: b :: rest) as Hb by (right; left).
    apply Hin in Ha as (sa & -> & Hsa). apply Hin in Hb as (sb & -> & Hsb).
    apply NoDup_cons in Hnodup as [Hnotin _]. apply Hnotin.
    destruct (omap id answers) as [|s [|s' l]]; simpl in *.
    + by apply elem_of_nil in Hsa.
    + apply list_elem_of_singleton in Hsa, Hsb. subst. left.
    + lia.
Qed.

(** X24. [InputData.finishAddingInputs] keeps the registry: the same
  processors, in the same order and of the same kinds, however it ends;
  and with no [JSONSchemaInput] registered it returns and changes
  nothing. *)
Theorem X24_finishAddingInputs_keeps_registry this :
  identities (finishAddingInputs this).2 = identities this
  ∧ kinds (finishAddingInputs this).2 = kinds this
  ∧ ("schema" ∉ kinds this → finishAddingInputs this = (Ok tt, this)).
Proof.
  destruct (finishAddingInputs_registry this) as [Hids Hkinds].
  split; [done|]. split; [done|]. intros Hjson.
  unfold finishAddingInputs. exec.
  assert (∀ l : list (nat * Input),
            (∀ e, e ∈ l → e ∈ _inputs this) →
            forEachSync l (λ '(identity, _), call identity Input_finishAddingInputs) this
            = (Ok tt, this)) as Hloop.
  { induction l as [|[identity o] l IH]; intros Hsub; [done|].
    cbn [forEachSync]. erewrite bind_Ok; [apply IH|].
    - intros e He. apply Hsub. by right.
    - unfold call.
      destruct (find _ (_inputs this)) as [[j input]|] eqn:Hfind.
      + assert (Input_kind input ≠ "schema") as Hkind.
        { intros Hschema. apply Hjson. apply find_some in Hfind as [Hin _].
          apply list_elem_of_In in Hin. apply list_elem_of_fmap.
          by exists (j, input). }
        destruct input as [i|i]; [|done]. simpl.
        rewrite (store_found _ _ _ _ Hfind). by destruct this.
      + exfalso.
        assert (In (identity, o) (_inputs this)) as Hin
          by (apply list_elem_of_In, Hsub; left).
        pose proof (find_none _ _ Hfind (identity, o) Hin) as Hno.
        simpl in Hno. by rewrite bool_decide_eq_true_2 in Hno. }
  by apply Hloop.
Qed.

End MoreInputDataFacts.

(** ** The further properties at concrete inputs *)

Module MoreExamples.
Import SimpleURI TitledSchemas.

(** *** JSONInput *)

(** X2 at a call for "Person" that throws at its second sample, on an
  input that holds a set for "Pet". *)
Lemma X2_witness :
  let this :=
    (JSONInput.addSource (JSONInput.mkSource "Pet" [SIString "[0]"] (Some "pets"))
       (@JSONInput.new TextJSON.ops 0)).2 in
  let source := JSONInput.mkSource "Person" [SIString "[1]"; SIString ""] None in
  "Pet" ≠ JSONInput.name source
  ∧ (JSONInput.addSource source this).1 ≠ Ok tt
  ∧ Immutable.get "Pet" (JSONInput._topLevels (JSONInput.addSource source this).2)
    = Immutable.get "Pet" (JSONInput._topLevels this).
Proof.
  intros this source. split; [done|]. split; [done|].
  by apply (@X2_addSource_other_names_untouched TextJSON.ops source this "Pet").
Defined.

(** X4 at three sources of two names, those of "Person" apart. *)
Lemma X4_witness :
  let sources :=
    [JSONInput.mkSource "Person" [SIString "[1]"; SIString "[2]"] None;
     JSONInput.mkSource "Pet" [SIString "[3]"] None;
     JSONInput.mkSource "Person" [SIReadable "[4]"] (Some "people")] in
  let valuess := [["[1]"; "[2]"]; ["[3]"]; ["[4]"]] in
  @JSONInput.parseEach TextJSON.ops 0 sources = Some (valuess, 4)
  ∧ JSONInput.valuesFor "Person" sources valuess = ["[1]"; "[2]"; "[4]"]
  ∧ ∃ this',
      JSONInput.addSources sources (@JSONInput.new TextJSON.ops 0) = (Ok tt, this')
      ∧ ∀ n, JSONInput.samplesOf n this'
             = JSONInput.samplesOf n (@JSONInput.new TextJSON.ops 0)
               ++ JSONInput.valuesFor n sources valuess.
Proof.
  intros sources valuess. split; [reflexivity|]. split; [reflexivity|].
  refine (@X4_samples_per_name TextJSON.ops sources (@JSONInput.new TextJSON.ops 0)
            valuess 4 _).
  reflexivity.
Defined.

(** X5 at four sources of which one has no samples. *)
Lemma X5_witness :
  let sources :=
    [JSONInput.mkSource "Person" [SIString "[1]"] None;
     JSONInput.mkSource "Empty" [] (Some "nothing");
     JSONInput.mkSource "Pet" [SIString "[3]"] None;
     JSONInput.mkSource "Person" [SIReadable "[4]"] None] in
  @JSONInput.parseEach TextJSON.ops 0 sources = Some ([["[1]"]; []; ["[3]"]; ["[4]"]], 3)
  ∧ ∃ this',
      JSONInput.addSources sources (@JSONInput.new TextJSON.ops 0) = (Ok tt, this')
      ∧ JSONInput.names this' = ["Person"; "Pet"].
Proof.
  intros sources. split; [reflexivity|].
  refine (@X5_names_in_order_of_first_sample TextJSON.ops sources
            (@JSONInput.new TextJSON.ops 0) [["[1]"]; []; ["[3]"]; ["[4]"]] 3 _).
  reflexivity.
Defined.

(** X6 at a call without description after one with. *)
Lemma X6_witness :
  let this :=
    (JSONInput.addSource (JSONInput.mkSource "Person" [SIString "[1]"] (Some "people"))
       (@JSONInput.new TextJSON.ops 0)).2 in
  let source := JSONInput.mkSource "Person" [SIString "[2]"] None in
  @JSONInput.parseAll TextJSON.ops 1 [SIString "[2]"] = Some (["[2]"], 2)
  ∧ ∃ this',
      JSONInput.addSource source this = (Ok tt, this')
      ∧ JSONInput.descriptionOf "Person" this' = Some "people"
      ∧ (JSONInput.source_samples source = [] → this' = this).
Proof.
  intros this source. split; [reflexivity|].
  refine (@X6_description_of_last_describing_call TextJSON.ops source this ["[2]"] 2 _).
  reflexivity.
Defined.

(** *** JSONSchemaInput *)

(** X8 at a source that has only a name. *)
Lemma X8_witness :
  let this := JSONSchemaInput.new None [] in
  let this' := JSONSchemaInput.set_needIR true this in
  let source := JSONSchemaInput.mkSource "A" None None None in
  JSONSchemaInput.addSource source this
  = (Raised (AssertionFailed "URIs must be given if schema source is not specified"),
     this')
  ∧ JSONSchemaInput._schemaSources this' = JSONSchemaInput._schemaSources this
  ∧ JSONSchemaInput._schemaInputs this' = JSONSchemaInput._schemaInputs this.
Proof.
  intros this this' source.
  assert (JSONSchemaInput.addSource source this
          = (Raised (AssertionFailed
                       "URIs must be given if schema source is not specified"),
             this')) as Hcall by reflexivity.
  split; [done|].
  destruct (X8_failed_addSource_records_nothing source this _ this' Hcall)
    as (_ & _ & _ & Hcache & Hsources & _).
  done.
Defined.

(** X10 at a source that is only a URI, with no store given. *)
Lemma X10_witness :
  let this :=
    JSONSchemaInput.afterSources [JSONSchemaInput.mkSource "A" (Some ["a"]) None None]
      (JSONSchemaInput.new None []) in
  JSONSchemaInput._schemaSources this ≠ []
  ∧ JSONSchemaInput.activeStore this = None
  ∧ JSONSchemaInput.finishAddingInputs this
    = (Raised (Panic "Must have a schema store to process JSON Schema"), this)
  ∧ JSONSchemaInput.finishAddingInputs (JSONSchemaInput.new None [])
    = (Ok tt, JSONSchemaInput.new None []).
Proof.
  intros this.
  assert (JSONSchemaInput._schemaSources this ≠ []) as Hsources by done.
  assert (JSONSchemaInput.activeStore this = None) as Hstore by reflexivity.
  split; [done|]. split; [done|]. split.
  - by apply (proj1 (proj2 (X10_finishAddingInputs_without_sources_or_store this))).
  - by apply (proj1 (X10_finishAddingInputs_without_sources_or_store
                       (JSONSchemaInput.new None []))).
Defined.

(** X13 at three sources that bring two URIs, none and one. *)
Lemma X13_witness :
  let A := JSONSchemaInput.mkSource "A" (Some ["a"; "a#x"]) (Some (SIString "{}")) None in
  let B := JSONSchemaInput.mkSource "B" (Some []) (Some (SIString "{}")) None in
  let C := JSONSchemaInput.mkSource "C" None (Some (SIString "[]")) None in
  let this' := (JSONSchemaInput.addSources [A; B; C] (JSONSchemaInput.new None [])).2 in
  JSONSchemaInput.addSources [A; B; C] (JSONSchemaInput.new None []) = (Ok tt, this')
  ∧ (JSONSchemaInput._schemaSources this').*2 = [A; A; C].
Proof.
  intros A B C this'.
  assert (JSONSchemaInput.addSources [A; B; C] (JSONSchemaInput.new None [])
          = (Ok tt, this')) as Hcalls by (vm_compute; reflexivity).
  split; [done|].
  exact (X13_sources_recorded_in_submission_order [A; B; C]
           (JSONSchemaInput.new None []) this' Hcalls).
Defined.

(** X14 at three sources of which the second is only a URI, with no store
  given: its document cannot be fetched. *)
Lemma X14_witness :
  let A := JSONSchemaInput.mkSource "A" (Some ["a"]) (Some (SIString "{}")) None in
  let B := JSONSchemaInput.mkSource "B" (Some ["b"]) None None in
  let C := JSONSchemaInput.mkSource "C" (Some ["c"]) (Some (SIString "{}")) None in
  let this :=
    @JSONSchemaInput.afterSources SimpleURI.ops CachedSchemas.ops [A; B; C]
      (@JSONSchemaInput.new SimpleURI.ops CachedSchemas.ops None []) in
  let e := Panic "Schema URI b requested, but no store given" in
  JSONSchemaInput._schemaSources this
  = [(parse "a", A)] ++ ((parse "b", B) :: [(parse "c", C)])
  ∧ JSONSchemaInput.activeStore this = Some (InputJSONSchemaStore None)
  ∧ JSONSchemaInput.resolution this (InputJSONSchemaStore None) (parse "b", B) = inl e
  ∧ ∃ this',
      JSONSchemaInput.finishAddingInputs this = (Raised e, this')
      ∧ JSONSchemaInput._topLevels this' = [("Title of a", "a")].
Proof.
  intros A B C this e.
  split; [reflexivity|]. split; [reflexivity|]. split; [reflexivity|].
  refine (@X14_finishAddingInputs_stops_at_first_failure SimpleURI.ops CachedSchemas.ops
            this (InputJSONSchemaStore None) [(parse "a", A)] (parse "b", B)
            [(parse "c", C)] [SingleRef "Title of a" "a"] e _ _ _ _);
    [reflexivity|reflexivity|repeat constructor|reflexivity].
Defined.

(** *** InputJSONSchemaStore *)


(** X17 at a session without a given store that was finished twice. *)
Lemma X17_witness :
  let calls :=
    [JSONSchemaInput.AddSource
       (JSONSchemaInput.mkSource "A" (Some ["a"]) (Some (SIString "{}")) None);
     JSONSchemaInput.FinishAddingInputs; JSONSchemaInput.FinishAddingInputs] in
  let this := JSONSchemaInput.afterCalls calls (JSONSchemaInput.new None []) in
  let store := InputJSONSchemaStore (Some (InputJSONSchemaStore None)) in
  JSONSchemaInput._schemaStore this = Some store
  ∧ JSONSchemaInput._schemaInputs this !! "b" = None
  ∧ InputJSONSchemaStore.fetch (JSONSchemaInput._schemaInputs this) store "b"
    = inl (Panic "Schema URI b requested, but no store given").
Proof.
  intros calls this store.
  assert (JSONSchemaInput._schemaStore this = Some store) as Hstore by reflexivity.
  assert (JSONSchemaInput._schemaInputs this !! "b" = None) as Hmiss
    by (vm_compute; reflexivity).
  split; [done|]. split; [done|].
  exact (X17_uncached_address_goes_to_given_store None [] calls store "b" Hstore Hmiss).
Defined.

(** *** InputData *)

(** X20 at a session with a [JSONInput] that is then fed a schema source
  without [uris] and [schema]: the call throws, and the [JSONInput] is
  registered as it was. *)
Lemma X20_witness :
  let json := InputData.JSON (@JSONInput.new TextJSON.ops 0) in
  let schema := InputData.Schema (JSONSchemaInput.new None []) in
  let steps :=
    [InputData.AddSource "json"
       (InputData.JSONSource (JSONInput.mkSource "Person" [SIString "[1]"] None)) json] in
  let this := InputData.afterSteps steps InputData.new in
  let bad := InputData.SchemaSource (JSONSchemaInput.mkSource "A" None None None) in
  let entry :=
    (1, InputData.JSON
          (JSONInput.addSource (JSONInput.mkSource "Person" [SIString "[1]"] None)
             (@JSONInput.new TextJSON.ops 0)).2) in
  entry ∈ InputData._inputs this
  ∧ InputData.Input_kind entry.2 ≠ "schema"
  ∧ (InputData.addSource "schema" bad schema this).1 ≠ Ok tt
  ∧ entry ∈ InputData._inputs (InputData.addSource "schema" bad schema this).2.
Proof.
  intros json schema steps this bad entry.
  assert (entry ∈ InputData._inputs this) as Hin by left.
  assert (InputData.Input_kind entry.2 ≠ "schema") as Hkind by done.
  split; [done|]. split; [done|]. split; [done|].
  exact (X20_addSource_other_kinds_untouched steps "schema" bad schema entry Hin Hkind).
Defined.

(** X21 at a registry of one [JSONInput] and a schema source without
  [uris] and [schema]: the call throws, and the new [JSONSchemaInput] is
  registered after the [JSONInput]. *)
Lemma X21_witness :
  let this := InputData.mk [(1, InputData.JSON (@JSONInput.new TextJSON.ops 0))] in
  let schema := InputData.Schema (JSONSchemaInput.new None []) in
  let bad := InputData.SchemaSource (JSONSchemaInput.mkSource "A" None None None) in
  ("schema" ∉ InputData.kinds this)
  ∧ (InputData.addSource "schema" bad schema this).1 ≠ Ok tt
  ∧ InputData.identities (InputData.addSource "schema" bad schema this).2 = [1; 2]
  ∧ InputData.kinds (InputData.addSource "schema" bad schema this).2 = ["json"; "schema"].
Proof.
  intros this schema bad.
  assert ("schema" ∉ InputData.kinds this) as Hout.
  { intros Hin. apply list_elem_of_singleton in Hin. done. }
  split; [done|]. split; [done|].
  destruct (X21_new_processor_stays_registered "schema" bad schema this Hout)
    as (Hids & Hkinds & _).
  done.
Defined.

(** X19 at a registry with a [JSONInput] and two factories. *)
Lemma X19_witness :
  let this := InputData.mk [(1, InputData.JSON (@JSONInput.new TextJSON.ops 0))] in
  let source := InputData.JSONSource (JSONInput.mkSource "Person" [SIString "[1]"] None) in
  "json" ∈ InputData.kinds this
  ∧ InputData.addSource "json" source (InputData.JSON (@JSONInput.new TextJSON.ops 7)) this
    = InputData.addSource "json" source (InputData.Schema (JSONSchemaInput.new None [])) this.
Proof.
  intros this source.
  assert ("json" ∈ InputData.kinds this) as Hin by left.
  split; [done|].
  exact (X19_factory_unused_when_kind_registered "json" source _ _ this Hin).
Defined.

(** X24 at a registry of two [JSONInput]s. *)
Lemma X24_witness :
  let this :=
    InputData.mk [(1, InputData.JSON (@JSONInput.new TextJSON.ops 0));
                  (2, InputData.JSON (@JSONInput.new TextJSON.ops 5))] in
  ("schema" ∉ InputData.kinds this)
  ∧ InputData.finishAddingInputs this = (Ok tt, this).
Proof.
  intros this.
  assert ("schema" ∉ InputData.kinds this) as Hout.
  { intros Hin. apply elem_of_cons in Hin as [?|Hin]; [done|].
    apply list_elem_of_singleton in Hin. done. }
  split; [done|].
  exact (proj2 (proj2 (X24_finishAddingInputs_keeps_registry this)) Hout).
Defined.

(** X22 at a registry of one [JSONInput], fed a source that does not
  parse. *)
Lemma X22_witness :
  let this := InputData.mk [(1, InputData.JSON (@JSONInput.new TextJSON.ops 0))] in
  let c :=
    InputData.AddSource "json"
      (InputData.JSONSource (JSONInput.mkSource "Person" [SIString ""] None))
      (InputData.JSON (@JSONInput.new TextJSON.ops 0)) in
  "json" ∈ InputData.kinds this
  ∧ InputData.needIR this = true
  ∧ InputData.needIR (InputData.perform c this).2 = true
  ∧ InputData.needSchemaProcessing this = false.
Proof.
  intros this c.
  assert ("json" ∈ InputData.kinds this) as Hin by left.
  destruct (X22_needIR_and_needSchemaProcessing this) as (_ & Hjson & Hkeeps).
  split; [done|]. split; [by apply Hjson|]. split; [|reflexivity].
  apply Hkeeps. by apply Hjson.
Defined.

(** X23 at a session of two schema sources with the same text and a JSON
  source: one processor answers for both schema sources. *)
Lemma X23_witness :
  let json := InputData.JSON (@JSONInput.new TextJSON.ops 0) in
  let schema := InputData.Schema (JSONSchemaInput.new None []) in
  let calls : list InputData.sourceCall :=
    [("schema",
      InputData.SchemaSource
        (JSONSchemaInput.mkSource "A" None (Some (SIString "{}")) None), schema);
     ("json", InputData.JSONSource (JSONInput.mkSource "Person" [SIString "[1]"] None), json);
     ("schema",
      InputData.SchemaSource
        (JSONSchemaInput.mkSource "B" None (Some (SIString "{}")) None), schema)] in
  Forall InputData.ofItsKind calls
  ∧ (let this := InputData.afterAddSources calls InputData.new in
     length (InputData.reported this) ≤ 1
     ∧ InputData.singleStringSchemaSource this = Ok (head (InputData.reported this)))
  ∧ InputData.reported (InputData.afterAddSources calls InputData.new) = ["{}"].
Proof.
  intros json schema calls.
  assert (Forall InputData.ofItsKind calls) as Hcalls by (repeat constructor).
  split; [done|]. split; [|reflexivity].
  exact (X23_no_panic_with_one_processor_per_kind calls Hcalls).
Defined.

End MoreExamples.
